(** * A two-sided limit order book: OrderBook.h / OrderBook.cpp

    Shallow embedding of [ob::OrderBook] and of its add / remove / amend /
    query member functions, followed by the properties of the book.

    Conventions of the embedding.

    - [double] prices.  The book never does arithmetic on a price: it only
      compares prices with [==], [!=], [<], [>] and [<=].  A price is
      embedded as an integer key ([Z]) carrying the same total order.  NaN is
      outside the model: [std::map] requires its comparator to be a strict
      weak ordering on the keys it is given, which [a < b] / [a > b] are not
      in presence of NaN.
    - [uint64_t] quantities are [N]; the book only stores and compares them.
    - [TimePoint] is the tick count of the [system_clock] time point ([Z]).
    - [shared_ptr<Order>]: orders live in an object store ([heap]); a shared
      pointer is the address of its object.  Objects are never overwritten by
      an allocation, which is what holding a [shared_ptr] guarantees.  A
      pointer without an object in the store plays the empty [shared_ptr].
      The store keeps the object of a removed order, whose last owner may be
      a caller; no pointer of the book leads to it any more.
    - [std::list<shared_ptr<Order>>::iterator]: a list node holds one shared
      pointer for its whole life, and the book reads an iterator only to
      fetch that pointer ([*it]) or to unlink the node ([erase(it)]).  The
      iterator is embedded as the pointer its node holds, and [erase] unlinks
      the node holding that pointer.
    - [std::map<double, PriceLevel, Compare>] is a list of (key, level)
      entries kept in the order of the comparator; [begin()] is its head.
    - [std::unordered_map<string, OrderLookup>] is a [gmap]. *)

From Stdlib Require Import ZArith NArith Bool Lia.
From stdpp Require Import gmap strings list fin_maps sorting.

Open Scope Z_scope.

(** ** Types of OrderBook.h *)

Inductive Side := Bid | Ask.
Inductive TxnType := Add | Amend | Remove.

Definition TimePoint := Z.
Definition ptr := nat.

#[global] Instance Side_eq_dec : EqDecision Side.
Proof. solve_decision. Defined.

#[global] Instance TxnType_eq_dec : EqDecision TxnType.
Proof. solve_decision. Defined.

Module Transaction.
Record t := mk { type : TxnType; time : TimePoint }.
End Transaction.

Module Order.
Record t := mk {
  id : string;
  side : Side;
  price : Z;
  quantity : N;
  creation_time : TimePoint;
  last_update_time : TimePoint;
  last_txn : Transaction.t
}.

(** The constructor [Order(id_, side_, price_, qty_, now)]. *)
Definition make (id_ : string) (side_ : Side) (price_ : Z) (qty_ : N)
    (now : TimePoint) : t :=
  mk id_ side_ price_ qty_ now now (Transaction.mk Add now).

Definition set_price (o : t) (p : Z) : t :=
  mk (id o) (side o) p (quantity o) (creation_time o) (last_update_time o)
     (last_txn o).
Definition set_quantity (o : t) (q : N) : t :=
  mk (id o) (side o) (price o) q (creation_time o) (last_update_time o)
     (last_txn o).
Definition set_last_update_time (o : t) (u : TimePoint) : t :=
  mk (id o) (side o) (price o) (quantity o) (creation_time o) u (last_txn o).
Definition set_last_txn (o : t) (x : Transaction.t) : t :=
  mk (id o) (side o) (price o) (quantity o) (creation_time o)
     (last_update_time o) x.
End Order.

Module PriceLevel.
Record t := mk { price : Z; orders : list ptr }.

(** [explicit PriceLevel(double p)]: a level with no order. *)
Definition make (p : Z) : t := mk p [].
Definition order_count (pl : t) : nat := length (orders pl).

(** [orders.push_back(o)] and [orders.erase(it)]. *)
Definition push_back (o : ptr) (pl : t) : t := mk (price pl) (orders pl ++ [o]).
Definition erase (it : ptr) (pl : t) : t :=
  mk (price pl) (filter (λ q, q ≠ it) (orders pl)).
End PriceLevel.

Module OrderLookup.
Record t := mk { side : Side; price : Z; list_it : ptr }.
End OrderLookup.

(** The comparators of the two sides. *)
Definition DescPrice (a b : Z) : bool := a >? b.
Definition AscePrice (a b : Z) : bool := a <? b.

(** ** The ordered map [std::map<double, V, Compare>] *)

Section PriceMap.
Context {V : Type}.
Variable comp : Z → Z → bool.

(** Two keys are the same key when neither goes before the other. *)
Definition equiv (a b : Z) : bool := negb (comp a b) && negb (comp b a).

Fixpoint find (k : Z) (m : list (Z * V)) : option V :=
  match m with
  | [] => None
  | (k', v) :: m' => if equiv k k' then Some v else find k m'
  end.

(** [emplace(k, v)]: a new entry at its place in the comparator's order;
    nothing happens when the key is already there. *)
Fixpoint emplace (k : Z) (v : V) (m : list (Z * V)) : list (Z * V) :=
  match m with
  | [] => [(k, v)]
  | (k', v') :: m' =>
      if comp k k' then (k, v) :: m
      else if comp k' k then (k', v') :: emplace k v m'
      else m
  end.

Fixpoint erase (k : Z) (m : list (Z * V)) : list (Z * V) :=
  match m with
  | [] => []
  | (k', v') :: m' => if equiv k k' then m' else (k', v') :: erase k m'
  end.

(** A write to [it->second] through the iterator of key [k]. *)
Fixpoint update (k : Z) (f : V → V) (m : list (Z * V)) : list (Z * V) :=
  match m with
  | [] => []
  | (k', v') :: m' =>
      if equiv k k' then (k', f v') :: m' else (k', v') :: update k f m'
  end.

Definition keys (m : list (Z * V)) : list Z := m.*1.
End PriceMap.

(** ** The book *)

Record OrderBook := mkOrderBook {
  bid_book : list (Z * PriceLevel.t);
  ask_book : list (Z * PriceLevel.t);
  orders_by_id : gmap string OrderLookup.t;
  heap : list Order.t
}.

(** [OrderBook() = default]. *)
Definition empty_book : OrderBook := mkOrderBook [] [] ∅ [].

Definition set_bid_book (m : list (Z * PriceLevel.t)) (st : OrderBook) :=
  mkOrderBook m (ask_book st) (orders_by_id st) (heap st).
Definition set_ask_book (m : list (Z * PriceLevel.t)) (st : OrderBook) :=
  mkOrderBook (bid_book st) m (orders_by_id st) (heap st).
Definition set_orders_by_id (ix : gmap string OrderLookup.t) (st : OrderBook) :=
  mkOrderBook (bid_book st) (ask_book st) ix (heap st).
Definition set_heap (h : list Order.t) (st : OrderBook) :=
  mkOrderBook (bid_book st) (ask_book st) (orders_by_id st) h.

(** [make_shared<Order>(...)]: a new object at a fresh address. *)
Definition make_shared (o : Order.t) (st : OrderBook) : ptr * OrderBook :=
  (length (heap st), set_heap (heap st ++ [o]) st).

(** Assignments [p->field = ...] to the object behind a shared pointer. *)
Definition store (p : ptr) (f : Order.t → Order.t) (st : OrderBook) : OrderBook :=
  set_heap (alter f p (heap st)) st.

(** [optional<T>::value()]; the book calls it behind [has_value()] only. *)
Definition value_Z (o : option Z) : Z := default 0 o.
Definition value_N (o : option N) : N := default 0%N o.
Definition has_value {A} (o : option A) : bool :=
  match o with Some _ => true | None => false end.

(** The sequence shared by [add_order] and by the price change of
    [amend_order]: find the level of [price], create it when it is missing,
    and [push_back] the order. *)
Definition place (comp : Z → Z → bool) (price : Z) (order : ptr)
    (pl_map : list (Z * PriceLevel.t)) : list (Z * PriceLevel.t) :=
  let pl_map :=
    match find comp price pl_map with
    | None => emplace comp price (PriceLevel.make price) pl_map
    | Some _ => pl_map
    end in
  update comp price (PriceLevel.push_back order) pl_map.

(** The sequence shared by [remove_order] and by the price change of
    [amend_order], given the level [pl_it] found at [price]: erase the node
    from the level, and erase the level when that leaves it empty. *)
Definition unlink (comp : Z → Z → bool) (price : Z) (it : ptr)
    (pl_map : list (Z * PriceLevel.t)) : list (Z * PriceLevel.t) :=
  let pl_map := update comp price (PriceLevel.erase it) pl_map in
  match find comp price pl_map with
  | Some pl =>
      if bool_decide (PriceLevel.orders pl = []) then erase comp price pl_map
      else pl_map
  | None => pl_map
  end.

Definition add_order (id : string) (side : Side) (price : Z) (qty : N)
    (t : TimePoint) (st : OrderBook) : bool * OrderBook :=
  if bool_decide (is_Some (orders_by_id st !! id)) then (false, st)
  else
    let '(order, st) := make_shared (Order.make id side price qty t) st in
    match side with
    | Bid =>
        let st := set_bid_book (place DescPrice price order (bid_book st)) st in
        let st := set_orders_by_id
                    (<[id := OrderLookup.mk side price order]> (orders_by_id st)) st in
        let st := store order (λ o, Order.set_last_txn o (Transaction.mk Add t)) st in
        (true, st)
    | Ask =>
        let st := set_ask_book (place AscePrice price order (ask_book st)) st in
        let st := set_orders_by_id
                    (<[id := OrderLookup.mk side price order]> (orders_by_id st)) st in
        let st := store order (λ o, Order.set_last_txn o (Transaction.mk Add t)) st in
        (true, st)
    end.

(** The lambda [exe] of [remove_order], on the map of the order's side. *)
Definition remove_exe (id : string) (info : OrderLookup.t)
    (comp : Z → Z → bool) (pl_map : list (Z * PriceLevel.t))
    (set_map : list (Z * PriceLevel.t) → OrderBook → OrderBook)
    (st : OrderBook) : bool * OrderBook :=
  match find comp (OrderLookup.price info) pl_map with
  | None => (false, st)
  | Some _ =>
      let st := set_map (unlink comp (OrderLookup.price info)
                           (OrderLookup.list_it info) pl_map) st in
      let st := set_orders_by_id (delete id (orders_by_id st)) st in
      (true, st)
  end.

Definition remove_order (id : string) (t : TimePoint) (st : OrderBook)
    : bool * OrderBook :=
  match orders_by_id st !! id with
  | None => (false, st)
  | Some info =>
      match OrderLookup.side info with
      | Bid => remove_exe id info DescPrice (bid_book st) set_bid_book st
      | Ask => remove_exe id info AscePrice (ask_book st) set_ask_book st
      end
  end.

(** The lambda [exe] of the price change of [amend_order]. *)
Definition amend_exe (id : string) (info : OrderLookup.t) (o_shared : ptr)
    (new_price : option Z) (new_qty : option N) (t : TimePoint)
    (comp : Z → Z → bool) (pl_map : list (Z * PriceLevel.t))
    (set_map : list (Z * PriceLevel.t) → OrderBook → OrderBook)
    (st : OrderBook) : OrderBook :=
  let old_price := OrderLookup.price info in
  let side := OrderLookup.side info in
  let pl_map :=
    match find comp old_price pl_map with
    | Some _ => unlink comp old_price (OrderLookup.list_it info) pl_map
    | None => pl_map
    end in
  let st := store o_shared (λ o, Order.set_price o (value_Z new_price)) st in
  let st := if has_value new_qty
            then store o_shared (λ o, Order.set_quantity o (value_N new_qty)) st
            else st in
  let st := store o_shared (λ o, Order.set_last_update_time o t) st in
  let st := store o_shared (λ o, Order.set_last_txn o (Transaction.mk Amend t)) st in
  let price := value_Z new_price in
  let st := set_map (place comp price o_shared pl_map) st in
  set_orders_by_id
    (<[id := OrderLookup.mk side price o_shared]> (orders_by_id st)) st.

(** The lambda [exeCp] of [amend_order]: same price, priority lost. *)
Definition amend_exeCp (id : string) (info : OrderLookup.t) (o_shared : ptr)
    (new_qty : option N) (t : TimePoint)
    (comp : Z → Z → bool) (pl_map : list (Z * PriceLevel.t))
    (set_map : list (Z * PriceLevel.t) → OrderBook → OrderBook)
    (st : OrderBook) : bool * OrderBook :=
  let old_price := OrderLookup.price info in
  let side := OrderLookup.side info in
  match find comp old_price pl_map with
  | None => (false, st)
  | Some _ =>
      let pl_map :=
        update comp old_price (PriceLevel.erase (OrderLookup.list_it info)) pl_map in
      let st := store o_shared (λ o, Order.set_quantity o (value_N new_qty)) st in
      let st := store o_shared (λ o, Order.set_last_update_time o t) st in
      let st := store o_shared (λ o, Order.set_last_txn o (Transaction.mk Amend t)) st in
      let pl_map := update comp old_price (PriceLevel.push_back o_shared) pl_map in
      let st := set_map pl_map st in
      let st := set_orders_by_id
                  (<[id := OrderLookup.mk side old_price o_shared]> (orders_by_id st))
                  st in
      (true, st)
  end.

Definition amend_order (id : string) (new_price : option Z) (new_qty : option N)
    (t : TimePoint) (st : OrderBook) : bool * OrderBook :=
  match orders_by_id st !! id with
  | None => (false, st)
  | Some info =>
      let o_shared := OrderLookup.list_it info in
      match heap st !! o_shared with
      | None => (false, st)
      | Some o =>
          let old_price := OrderLookup.price info in
          let old_qty := Order.quantity o in
          let side := OrderLookup.side info in
          let price_changed :=
            has_value new_price && negb (value_Z new_price =? old_price) in
          let qty_changed :=
            has_value new_qty && negb (value_N new_qty =? old_qty)%N in
          let keep_priority :=
            negb price_changed && qty_changed && (value_N new_qty <? old_qty)%N in
          if price_changed then
            match side with
            | Bid => (true, amend_exe id info o_shared new_price new_qty t
                              DescPrice (bid_book st) set_bid_book st)
            | Ask => (true, amend_exe id info o_shared new_price new_qty t
                              AscePrice (ask_book st) set_ask_book st)
            end
          else if negb qty_changed then (false, st)
          else if keep_priority then
            let st := store o_shared
                        (λ o, Order.set_quantity o (value_N new_qty)) st in
            let st := store o_shared
                        (λ o, Order.set_last_txn o (Transaction.mk Amend t)) st in
            (true, st)
          else
            match side with
            | Bid => amend_exeCp id info o_shared new_qty t
                       DescPrice (bid_book st) set_bid_book st
            | Ask => amend_exeCp id info o_shared new_qty t
                       AscePrice (ask_book st) set_ask_book st
            end
      end
  end.

(** ** Queries *)

Definition top_price (s : Side) (st : OrderBook) : option Z :=
  match s with
  | Bid => match bid_book st with [] => None | (p, _) :: _ => Some p end
  | Ask => match ask_book st with [] => None | (p, _) :: _ => Some p end
  end.

Definition bottom_price (s : Side) (st : OrderBook) : option Z :=
  match s with
  | Bid => fst <$> last (bid_book st)
  | Ask => fst <$> last (ask_book st)
  end.

Definition is_crossed (st : OrderBook) : bool :=
  let top_bid := top_price Bid st in
  let top_ask := top_price Ask st in
  if negb (has_value top_bid) || negb (has_value top_ask) then false
  else value_Z top_ask <=? value_Z top_bid.

Definition num_price_levels (s : Side) (st : OrderBook) : nat :=
  match s with
  | Bid => length (bid_book st)
  | Ask => length (ask_book st)
  end.

Definition price_levels (s : Side) (st : OrderBook) : list Z :=
  match s with
  | Bid => (bid_book st).*1
  | Ask => (ask_book st).*1
  end.

Definition num_orders_at (s : Side) (price : Z) (st : OrderBook) : nat :=
  let exe comp pl_map :=
    match find comp price pl_map with
    | None => 0%nat
    | Some pl => PriceLevel.order_count pl
    end in
  match s with
  | Bid => exe DescPrice (bid_book st)
  | Ask => exe AscePrice (ask_book st)
  end.

Definition orders_at (s : Side) (price : Z) (st : OrderBook) : list ptr :=
  let exe comp pl_map :=
    match find comp price pl_map with
    | None => []
    | Some pl => PriceLevel.orders pl
    end in
  match s with
  | Bid => exe DescPrice (bid_book st)
  | Ask => exe AscePrice (ask_book st)
  end.

Definition num_orders_on_side (s : Side) (st : OrderBook) : nat :=
  match s with
  | Bid => foldl (λ cnt kv, (cnt + PriceLevel.order_count kv.2)%nat) 0%nat (bid_book st)
  | Ask => foldl (λ cnt kv, (cnt + PriceLevel.order_count kv.2)%nat) 0%nat (ask_book st)
  end.

Definition orders_on_side (s : Side) (st : OrderBook) : list ptr :=
  match s with
  | Bid => concat (map (λ kv, PriceLevel.orders kv.2) (bid_book st))
  | Ask => concat (map (λ kv, PriceLevel.orders kv.2) (ask_book st))
  end.

Definition get_order (id : string) (st : OrderBook) : option ptr :=
  match orders_by_id st !! id with
  | None => None
  | Some info => Some (OrderLookup.list_it info)
  end.

Definition last_transaction (id : string) (st : OrderBook) : option Transaction.t :=
  match get_order id st with
  | Some o => Order.last_txn <$> heap st !! o
  | None => None
  end.

(** The four time scans walk [orders_by_id]; the order in which an
    [unordered_map] is walked is not specified, the embedding walks it in the
    order of [map_to_list]. *)
Definition scan (keep : Order.t → bool) (st : OrderBook) : list ptr :=
  omap (λ kv, match heap st !! OrderLookup.list_it kv.2 with
              | Some o => if keep o then Some (OrderLookup.list_it kv.2) else None
              | None => None
              end)
       (map_to_list (orders_by_id st)).

Definition orders_created_before (t : TimePoint) (st : OrderBook) : list ptr :=
  scan (λ o, Order.creation_time o <? t) st.
Definition orders_created_after (t : TimePoint) (st : OrderBook) : list ptr :=
  scan (λ o, Order.creation_time o >? t) st.
Definition orders_updated_before (t : TimePoint) (st : OrderBook) : list ptr :=
  scan (λ o, Order.last_update_time o <? t) st.
Definition orders_updated_after (t : TimePoint) (st : OrderBook) : list ptr :=
  scan (λ o, Order.last_update_time o >? t) st.

(** ** Runs of the book, and the notions the properties are stated with *)

(** A call of one of the three mutating member functions. *)
Inductive Op :=
| OpAdd (id : string) (side : Side) (price : Z) (qty : N) (t : TimePoint)
| OpRemove (id : string) (t : TimePoint)
| OpAmend (id : string) (new_price : option Z) (new_qty : option N) (t : TimePoint).

Definition step (op : Op) (st : OrderBook) : bool * OrderBook :=
  match op with
  | OpAdd id side price qty t => add_order id side price qty t st
  | OpRemove id t => remove_order id t st
  | OpAmend id new_price new_qty t => amend_order id new_price new_qty t st
  end.

Definition op_time (op : Op) : TimePoint :=
  match op with
  | OpAdd _ _ _ _ t => t
  | OpRemove _ t => t
  | OpAmend _ _ _ t => t
  end.


Definition run (ops : list Op) (st : OrderBook) : OrderBook :=
  foldl (λ st op, (step op st).2) st ops.

(** The states the book can be in: the empty book, and every state a call
    leaves behind, whatever it returns. *)
Inductive reachable : OrderBook → Prop :=
| reachable_empty : reachable empty_book
| reachable_step op st : reachable st → reachable (step op st).2.

(** The calls come with timestamps that never go back, the first one not
    before [now]. *)
Fixpoint monotone (now : TimePoint) (ops : list Op) : Prop :=
  match ops with
  | [] => True
  | op :: ops => now ≤ op_time op ∧ monotone (op_time op) ops
  end.

Definition comp_of (s : Side) : Z → Z → bool :=
  match s with Bid => DescPrice | Ask => AscePrice end.
Definition book (s : Side) (st : OrderBook) : list (Z * PriceLevel.t) :=
  match s with Bid => bid_book st | Ask => ask_book st end.
Definition set_book (s : Side) (m : list (Z * PriceLevel.t)) (st : OrderBook) :=
  match s with Bid => set_bid_book m st | Ask => set_ask_book m st end.

(** An id is active when the index knows it: [orders_by_id.count(id)]. *)
Definition active (id : string) (st : OrderBook) : Prop :=
  is_Some (orders_by_id st !! id).

(** The object a shared pointer gives access to. *)
Definition deref (st : OrderBook) (p : ptr) : option Order.t := heap st !! p.


(** The ids of the orders behind a sequence of shared pointers. *)
Definition ids_of (st : OrderBook) (l : list ptr) : list string :=
  omap (λ p, Order.id <$> deref st p) l.



(** A shared pointer some query hands out in state [st]. *)
Inductive returned (st : OrderBook) (p : ptr) : Prop :=
| ret_get_order id : get_order id st = Some p → returned st p
| ret_orders_at s price : p ∈ orders_at s price st → returned st p
| ret_orders_on_side s : p ∈ orders_on_side s st → returned st p
| ret_created_before t : p ∈ orders_created_before t st → returned st p
| ret_created_after t : p ∈ orders_created_after t st → returned st p
| ret_updated_before t : p ∈ orders_updated_before t st → returned st p
| ret_updated_after t : p ∈ orders_updated_after t st → returned st p.

(** What [std::map] asks of its comparator, on the keys of the embedding: a
    strict total order. *)
Class Compare (comp : Z → Z → bool) : Prop := {
  comp_irrefl : ∀ a, comp a a = false;
  comp_trans : ∀ a b c, comp a b = true → comp b c = true → comp a c = true;
  comp_total : ∀ a b, a ≠ b → comp a b = true ∨ comp b a = true
}.

(** What unlinking an order leaves of its level: nothing when the level held
    that order alone. *)
Definition shrink (q : ptr) (pl : PriceLevel.t) : option PriceLevel.t :=
  if bool_decide (PriceLevel.orders (PriceLevel.erase q pl) = []) then None
  else Some (PriceLevel.erase q pl).

(** The entries of a map come in the order of its comparator. *)
Definition sorted {V} (comp : Z → Z → bool) (m : list (Z * V)) : Prop :=
  StronglySorted (λ a b, comp a b = true) (keys m).

(** The level of price [p] on side [s], when there is one. *)
Definition level (s : Side) (p : Z) (st : OrderBook) : option PriceLevel.t :=
  find (comp_of s) p (book s st).

(** The representation invariant of the book. *)
Record wf (st : OrderBook) : Prop := mk_wf {
  wf_sorted : ∀ s, sorted (comp_of s) (book s st);
  wf_nonempty : ∀ s p pl, level s p st = Some pl → PriceLevel.orders pl ≠ [];
  wf_nodup : ∀ s p pl, level s p st = Some pl → NoDup (PriceLevel.orders pl);
  wf_index : ∀ id info, orders_by_id st !! id = Some info →
    ∃ o pl, deref st (OrderLookup.list_it info) = Some o ∧
            Order.id o = id ∧
            Order.side o = OrderLookup.side info ∧
            Order.price o = OrderLookup.price info ∧
            level (OrderLookup.side info) (OrderLookup.price info) st = Some pl ∧
            OrderLookup.list_it info ∈ PriceLevel.orders pl;
  wf_level : ∀ s p pl q, level s p st = Some pl → q ∈ PriceLevel.orders pl →
    ∃ o, deref st q = Some o ∧
         orders_by_id st !! Order.id o = Some (OrderLookup.mk s p q)
}.




(** How often an id shows up in a sequence of ids. *)
Definition occurrences (id : string) (l : list string) : nat :=
  length (filter (λ x, x = id) l).

(** ** The rest of the header, and notions for the further properties *)

(** [PriceLevel::total_quantity]: the quantities of the orders of a level,
    added up in a [uint64_t]. *)
Definition total_quantity (st : OrderBook) (pl : PriceLevel.t) : N :=
  foldl (λ s p, match deref st p with
                | Some o => ((s + Order.quantity o) mod 2 ^ 64)%N
                | None => s
                end) 0%N (PriceLevel.orders pl).

(** [Order::side_str]. *)
Definition side_str (o : Order.t) : string :=
  match Order.side o with Bid => "Bid" | Ask => "Ask" end.

(** The id a call is about. *)
Definition op_id (op : Op) : string :=
  match op with
  | OpAdd id _ _ _ _ => id
  | OpRemove id _ => id
  | OpAmend id _ _ _ => id
  end.

(** Price [a] is at least as good as price [b] on side [s]. *)
Definition at_least_as_good (s : Side) (a b : Z) : Prop :=
  match s with Bid => b ≤ a | Ask => a ≤ b end.

(** The better of two prices on side [s]. *)
Definition better_of (s : Side) (a b : Z) : Z :=
  match s with Bid => Z.max a b | Ask => Z.min a b end.

(** What no call changes of an order object. *)
Definition same_identity (o o' : Order.t) : Prop :=
  Order.id o' = Order.id o ∧ Order.side o' = Order.side o ∧
  Order.creation_time o' = Order.creation_time o.

(** The three times of an order object, in their order, none after [now]. *)
Definition times_ordered (now : TimePoint) (o : Order.t) : Prop :=
  Order.creation_time o ≤ Order.last_update_time o ∧
  Order.last_update_time o ≤ Transaction.time (Order.last_txn o) ∧
  Transaction.time (Order.last_txn o) ≤ now.

(** The exact sum of the quantities behind a sequence of pointers. *)
Definition quantity_sum (st : OrderBook) (l : list ptr) : N :=
  foldr (λ p s, (from_option Order.quantity 0 (deref st p) + s)%N) 0%N l.

(** The pointers of a side, level after level. *)
Definition orders_in (m : list (Z * PriceLevel.t)) : list ptr :=
  concat (map (λ kv, PriceLevel.orders kv.2) m).

(** ** Sample runs *)

(** Scenario 1 of the specification: two bids at 50. *)
Definition two_bids : list Op :=
  [OpAdd "1" Bid 50 400%N 1; OpAdd "2" Bid 50 300%N 2].

(** Scenario 4: an ask at 55 and a bid at 51. *)
Definition ask_and_bid : list Op :=
  [OpAdd "3" Ask 55 400%N 1; OpAdd "4" Bid 51 100%N 2].


(** The book the demo of main.cpp builds first. *)
Definition book_1 : list Op :=
  [OpAdd "1" Bid 50 400%N 1; OpAdd "2" Bid 50 300%N 2; OpAdd "3" Ask 55 400%N 3;
   OpAdd "4" Bid 51 100%N 4; OpAdd "5" Ask 56 200%N 5].

(** The state that book is in. *)
Definition st_book_1 : OrderBook := run book_1 empty_book.

(** * Properties *)

(** ** The ordered map *)

Section PriceMapFacts.
Context {V : Type}.
Variable comp : Z → Z → bool.
Context `{!Compare comp}.

Implicit Types (m : list (Z * V)) (k : Z) (v : V).

Lemma equiv_true a b : equiv comp a b = true ↔ a = b.
Proof.
  unfold equiv. split.
  - intros H. destruct (decide (a = b)) as [|Hne]; [done|].
    apply andb_true_iff in H as [H1 H2].
    destruct (comp_total a b Hne) as [E|E]; rewrite E in *; done.
  - intros ->. by rewrite comp_irrefl.
Qed.

Lemma equiv_refl a : equiv comp a a = true.
Proof. by apply equiv_true. Qed.

Lemma equiv_false a b : a ≠ b → equiv comp a b = false.
Proof.
  intros Hne. destruct (equiv comp a b) eqn:E; [|done].
  by apply equiv_true in E.
Qed.

Lemma comp_asym a b : comp a b = true → comp b a = false.
Proof.
  intros H. destruct (comp b a) eqn:E; [|done].
  by rewrite <- (comp_irrefl a), <- (comp_trans a b a H E).
Qed.

Lemma comp_ne a b : comp a b = true → a ≠ b.
Proof. intros H ->. by rewrite comp_irrefl in H. Qed.

(** A case analysis on two keys: equal or not, with [equiv] rewritten. *)
Ltac key_cases a b :=
  destruct (decide (a = b)) as [->|?];
  [rewrite ?equiv_refl | rewrite ?(equiv_false a b) by done].

Lemma find_keys k m : is_Some (find comp k m) ↔ k ∈ keys m.
Proof.
  unfold keys. induction m as [|[k' v'] m IH]; simpl.
  - split; [by intros [? ?]|]. by intros ?%elem_of_nil.
  - rewrite elem_of_cons. key_cases k k'.
    + split; [by left|by eexists].
    + rewrite IH. split; [by right|]. by intros [?|?].
Qed.

Lemma find_None_keys k m : find comp k m = None ↔ k ∉ keys m.
Proof. rewrite <- find_keys, eq_None_not_Some. done. Qed.

Lemma find_elem_of k v m : find comp k m = Some v → (k, v) ∈ m.
Proof.
  induction m as [|[k' v'] m IH]; simpl; [done|].
  key_cases k k'.
  - intros [= ->]. left.
  - intros H. right. auto.
Qed.

Lemma sorted_cons k v m :
  sorted comp ((k, v) :: m) ↔ Forall (λ b, comp k b = true) (keys m) ∧ sorted comp m.
Proof. unfold sorted, keys. simpl. apply StronglySorted_cons. Qed.

Lemma sorted_head_notin k v m : sorted comp ((k, v) :: m) → k ∉ keys m.
Proof.
  rewrite sorted_cons. intros [H _] Hin.
  rewrite Forall_forall in H. specialize (H _ Hin).
  by rewrite comp_irrefl in H.
Qed.

Lemma sorted_NoDup m : sorted comp m → NoDup (keys m).
Proof.
  induction m as [|[k v] m IH]; [constructor|].
  intros H. unfold keys; simpl. constructor.
  - by apply (sorted_head_notin k v).
  - apply IH. by apply sorted_cons in H as [_ ?].
Qed.

Lemma elem_of_find k v m : sorted comp m → (k, v) ∈ m → find comp k m = Some v.
Proof.
  induction m as [|[k' v'] m IH]; simpl; intros Hs Hin.
  - by apply elem_of_nil in Hin.
  - apply elem_of_cons in Hin as [[= <- <-]|Hin].
    + by rewrite equiv_refl.
    + key_cases k k'.
      * exfalso. apply (sorted_head_notin _ _ _ Hs).
        unfold keys. apply list_elem_of_fmap. by exists (k', v).
      * apply IH; [|done]. by apply sorted_cons in Hs as [_ ?].
Qed.

Lemma keys_update k f m : keys (update comp k f m) = keys m.
Proof.
  unfold keys. induction m as [|[k' v'] m IH]; simpl; [done|].
  destruct (equiv comp k k'); simpl; [done|]. by f_equal.
Qed.

Lemma find_update k k' f m :
  find comp k' (update comp k f m) =
    if decide (k = k') then f <$> find comp k m else find comp k' m.
Proof.
  destruct (decide (k = k')) as [<-|Hk].
  - induction m as [|[k0 v0] m IH]; simpl; [done|].
    key_cases k k0; simpl.
    + by rewrite equiv_refl.
    + by rewrite (equiv_false k k0) by done.
  - induction m as [|[k0 v0] m IH]; simpl; [done|].
    key_cases k k0; simpl.
    + by rewrite (equiv_false k' k0) by done.
    + by destruct (equiv comp k' k0).
Qed.

Lemma sorted_update k f m : sorted comp m → sorted comp (update comp k f m).
Proof. unfold sorted. by rewrite keys_update. Qed.

Lemma keys_emplace k v m :
  find comp k m = None → keys (emplace comp k v m) ≡ₚ k :: keys m.
Proof.
  unfold keys. induction m as [|[k' v'] m IH]; simpl; [done|].
  key_cases k k'; [done|]. intros Hf.
  destruct (comp k k') eqn:E1; simpl; [done|].
  destruct (comp k' k) eqn:E2; simpl.
  - rewrite IH by done. apply Permutation_swap.
  - destruct (comp_total k k'); congruence.
Qed.

Lemma find_emplace k k' v m :
  find comp k m = None →
  find comp k' (emplace comp k v m) =
    if decide (k = k') then Some v else find comp k' m.
Proof.
  destruct (decide (k = k')) as [<-|Hk].
  - induction m as [|[k0 v0] m IH]; simpl.
    + by rewrite equiv_refl.
    + key_cases k k0; [done|]. intros Hf.
      destruct (comp k k0) eqn:E1; simpl; [by rewrite equiv_refl|].
      destruct (comp k0 k) eqn:E2; simpl.
      * rewrite (equiv_false k k0) by done. auto.
      * destruct (comp_total k k0); congruence.
  - induction m as [|[k0 v0] m IH]; simpl.
    + by rewrite (equiv_false k' k) by done.
    + key_cases k k0; [done|]. intros Hf.
      destruct (comp k k0) eqn:E1; simpl.
      * by rewrite (equiv_false k' k) by done.
      * destruct (comp k0 k) eqn:E2; simpl.
        -- destruct (equiv comp k' k0); auto.
        -- destruct (comp_total k k0); congruence.
Qed.

(** The head of a map comes first in the order of the comparator. *)
Lemma sorted_head_first k v m k' :
  sorted comp ((k, v) :: m) → k' ∈ keys ((k, v) :: m) → k' = k ∨ comp k k' = true.
Proof.
  rewrite sorted_cons. intros [Hall _] Hin. unfold keys in Hin; simpl in Hin.
  apply elem_of_cons in Hin as [->|Hin]; [by left|right].
  rewrite Forall_forall in Hall. auto.
Qed.
Lemma emplace_present k v m :
  sorted comp m → k ∈ keys m → emplace comp k v m = m.
Proof.
  induction m as [|[k1 v1] m IH]; simpl; intros Hs Hin.
  - by apply elem_of_nil in Hin.
  - destruct (sorted_head_first k1 v1 m k Hs Hin) as [->|Hlt].
    + by rewrite comp_irrefl.
    + rewrite (comp_asym _ _ Hlt), Hlt. f_equal.
      unfold keys in Hin; simpl in Hin.
      apply elem_of_cons in Hin as [->|Hin]; [by rewrite comp_irrefl in Hlt|].
      apply IH; [|done]. by apply sorted_cons in Hs as [_ ?].
Qed.

Lemma elem_of_keys_emplace k v m k' :
  sorted comp m → k' ∈ keys (emplace comp k v m) → k' = k ∨ k' ∈ keys m.
Proof.
  intros Hs Hin. destruct (find comp k m) eqn:Hf.
  - rewrite emplace_present in Hin; [by right|done|].
    apply find_keys. eauto.
  - rewrite (keys_emplace k v m Hf) in Hin.
    by apply elem_of_cons in Hin.
Qed.

Lemma sorted_emplace k v m : sorted comp m → sorted comp (emplace comp k v m).
Proof.
  induction m as [|[k0 v0] m IH]; simpl; intros Hs.
  - apply sorted_cons. split; [constructor|done].
  - destruct (comp k k0) eqn:E1.
    + apply sorted_cons. split; [|done].
      apply sorted_cons in Hs as [Hall _].
      unfold keys; simpl. constructor; [done|].
      eapply Forall_impl; [exact Hall|]. simpl. intros b Hb. by eapply comp_trans.
    + destruct (comp k0 k) eqn:E2; [|done].
      apply sorted_cons in Hs as [Hall Hs].
      apply sorted_cons. split; [|by apply IH].
      rewrite Forall_forall in *. intros b Hb.
      apply elem_of_keys_emplace in Hb as [->|Hb]; auto.
Qed.

Lemma find_erase k k' m :
  sorted comp m →
  find comp k' (erase comp k m) = if decide (k = k') then None else find comp k' m.
Proof.
  destruct (decide (k = k')) as [<-|Hk].
  - induction m as [|[k0 v0] m IH]; simpl; intros Hs; [done|].
    key_cases k k0.
    + apply find_None_keys. by apply (sorted_head_notin k0 v0).
    + simpl. rewrite (equiv_false k k0) by done.
      apply IH. by apply sorted_cons in Hs as [_ ?].
  - induction m as [|[k0 v0] m IH]; simpl; intros Hs; [done|].
    key_cases k k0.
    + by rewrite (equiv_false k' k0) by done.
    + simpl. destruct (equiv comp k' k0); [done|].
      apply IH. by apply sorted_cons in Hs as [_ ?].
Qed.

Lemma keys_erase_subseteq k m : keys (erase comp k m) ⊆ keys m.
Proof.
  unfold keys. induction m as [|[k0 v0] m IH]; simpl; [done|].
  destruct (equiv comp k k0); simpl; intros x Hx.
  - by right.
  - apply elem_of_cons in Hx as [->|Hx]; [left|right; by apply IH].
Qed.

Lemma sorted_erase k m : sorted comp m → sorted comp (erase comp k m).
Proof.
  induction m as [|[k0 v0] m IH]; simpl; intros Hs; [done|].
  apply sorted_cons in Hs as [Hall Hs].
  destruct (equiv comp k k0); [done|].
  apply sorted_cons. split; [|by apply IH].
  rewrite Forall_forall in *. intros b Hb. apply Hall.
  by apply keys_erase_subseteq in Hb.
Qed.

End PriceMapFacts.

(** ** The two comparators *)

#[global] Instance comp_of_Compare s : Compare (comp_of s).
Proof.
  split; destruct s; unfold comp_of, DescPrice, AscePrice; intros; lia.
Qed.

(** ** Placing an order in a map, and unlinking it *)

Section Levels.
Variable s : Side.
Implicit Types (m : list (Z * PriceLevel.t)) (k : Z) (q : ptr).

Lemma find_place k k' q m :
  find (comp_of s) k' (place (comp_of s) k q m) =
    if decide (k = k')
    then Some (PriceLevel.push_back q
                 (default (PriceLevel.make k) (find (comp_of s) k m)))
    else find (comp_of s) k' m.
Proof.
  unfold place. rewrite (find_update (comp_of s)).
  destruct (find (comp_of s) k m) as [pl|] eqn:Hf.
  - rewrite Hf. by case_decide.
  - rewrite !(find_emplace (comp_of s)) by done.
    repeat case_decide; done.
Qed.

Lemma sorted_place k q m :
  sorted (comp_of s) m → sorted (comp_of s) (place (comp_of s) k q m).
Proof.
  intros Hs. unfold place. apply sorted_update.
  destruct (find (comp_of s) k m); [done|].
  by apply (sorted_emplace (comp_of s)).
Qed.

Lemma find_unlink k k' q m :
  sorted (comp_of s) m →
  find (comp_of s) k' (unlink (comp_of s) k q m) =
    if decide (k = k') then find (comp_of s) k m ≫= shrink q
    else find (comp_of s) k' m.
Proof.
  intros Hs. unfold unlink.
  assert (Hs' : sorted (comp_of s) (update (comp_of s) k (PriceLevel.erase q) m))
    by by apply sorted_update.
  rewrite (find_update (comp_of s) k k), decide_True by done.
  assert (Hu : find (comp_of s) k' (update (comp_of s) k (PriceLevel.erase q) m) =
               if decide (k = k') then PriceLevel.erase q <$> find (comp_of s) k m
               else find (comp_of s) k' m) by apply (find_update (comp_of s)).
  destruct (find (comp_of s) k m) as [pl|] eqn:Hf; simpl in *;
    [|rewrite Hu; by case_decide].
  unfold shrink. simpl. case_bool_decide as He.
  - rewrite (find_erase (comp_of s)), Hu by done. by case_decide.
  - rewrite Hu. by case_decide.
Qed.

Lemma sorted_unlink k q m :
  sorted (comp_of s) m → sorted (comp_of s) (unlink (comp_of s) k q m).
Proof.
  intros Hs. unfold unlink.
  assert (Hs' : sorted (comp_of s) (update (comp_of s) k (PriceLevel.erase q) m))
    by by apply sorted_update.
  destruct (find (comp_of s) k _) as [pl|]; [|done].
  case_bool_decide; [|done]. by apply (sorted_erase (comp_of s)).
Qed.
End Levels.

(** ** Reading a state the setters built *)

Lemma book_set_book s s' m st :
  book s' (set_book s m st) = if decide (s = s') then m else book s' st.
Proof. by destruct s, s'. Qed.

Lemma level_set_book s s' p m st :
  level s' p (set_book s m st) =
    if decide (s = s') then find (comp_of s') p m else level s' p st.
Proof. by destruct s, s'. Qed.

Lemma level_set_orders_by_id s p ix st :
  level s p (set_orders_by_id ix st) = level s p st.
Proof. by destruct s. Qed.

Lemma level_set_heap s p h st : level s p (set_heap h st) = level s p st.
Proof. by destruct s. Qed.

Lemma book_set_orders_by_id s ix st : book s (set_orders_by_id ix st) = book s st.
Proof. by destruct s. Qed.

Lemma book_set_heap s h st : book s (set_heap h st) = book s st.
Proof. by destruct s. Qed.

Lemma orders_by_id_set_book s m st : orders_by_id (set_book s m st) = orders_by_id st.
Proof. by destruct s. Qed.

Lemma heap_set_book s m st : heap (set_book s m st) = heap st.
Proof. by destruct s. Qed.

Lemma orders_at_level s p st :
  orders_at s p st = from_option PriceLevel.orders [] (level s p st).
Proof. unfold orders_at, level. destruct s; simpl; by destruct (find _ _ _). Qed.

Lemma price_levels_keys s st : price_levels s st = keys (book s st).
Proof. by destruct s. Qed.

Lemma num_price_levels_length s st : num_price_levels s st = length (book s st).
Proof. by destruct s. Qed.

Lemma orders_on_side_book s st :
  orders_on_side s st = concat (map (λ kv, PriceLevel.orders kv.2) (book s st)).
Proof. by destruct s. Qed.

Lemma top_price_book s st : top_price s st = head (keys (book s st)).
Proof. unfold top_price. destruct s; simpl; by destruct (_ st) as [|[??]?]. Qed.

(** ** Writes to the object store *)

Lemma alter_snoc {A} (f : A → A) (l : list A) (x : A) :
  alter f (length l) (l ++ [x]) = l ++ [f x].
Proof.
  replace (length l) with (length l + 0)%nat by lia. by rewrite alter_app_r.
Qed.

Lemma alter_insert {A} (f : A → A) (l : list A) (i : nat) (x : A) :
  l !! i = Some x → alter f i l = <[i := f x]> l.
Proof.
  intros H. apply list_eq. intros j.
  destruct (decide (i = j)) as [<-|Hne].
  - rewrite list_lookup_alter_eq, H, list_lookup_insert_eq; [done|].
    by eapply lookup_lt_Some.
  - by rewrite list_lookup_alter_ne, list_lookup_insert_ne.
Qed.

Lemma deref_lt st p o : deref st p = Some o → (p < length (heap st))%nat.
Proof. apply lookup_lt_Some. Qed.

(** ** What each call does to the book, the index and the store *)

Lemma add_order_fail id s p qty t st :
  active id st → add_order id s p qty t st = (false, st).
Proof. intros H. unfold add_order. by rewrite bool_decide_true. Qed.

Lemma add_order_ok id s p qty t st :
  orders_by_id st !! id = None →
  add_order id s p qty t st =
    (true,
     set_heap (heap st ++ [Order.make id s p qty t])
       (set_orders_by_id
          (<[id := OrderLookup.mk s p (length (heap st))]> (orders_by_id st))
          (set_book s (place (comp_of s) p (length (heap st)) (book s st)) st))).
Proof.
  intros H. unfold add_order.
  rewrite bool_decide_false by (rewrite H; by intros [? ?]).
  destruct s; simpl; unfold store, set_heap, set_orders_by_id; simpl;
    by rewrite alter_snoc.
Qed.

Lemma remove_order_fail id t st :
  orders_by_id st !! id = None → remove_order id t st = (false, st).
Proof. intros H. unfold remove_order. by rewrite H. Qed.

Lemma remove_order_ok id t st info pl :
  orders_by_id st !! id = Some info →
  level (OrderLookup.side info) (OrderLookup.price info) st = Some pl →
  remove_order id t st =
    (true,
     set_orders_by_id (delete id (orders_by_id st))
       (set_book (OrderLookup.side info)
          (unlink (comp_of (OrderLookup.side info)) (OrderLookup.price info)
             (OrderLookup.list_it info) (book (OrderLookup.side info) st)) st)).
Proof.
  intros Hi Hl. unfold remove_order. rewrite Hi. unfold level in Hl.
  destruct (OrderLookup.side info); simpl in *; unfold remove_exe; by rewrite Hl.
Qed.

(** The object of an amended order, after a price change and after a change
    of the quantity alone. *)
Lemma amend_order_price id np nq t st info o :
  orders_by_id st !! id = Some info →
  deref st (OrderLookup.list_it info) = Some o →
  np ≠ OrderLookup.price info →
  let s := OrderLookup.side info in
  let q := OrderLookup.list_it info in
  let m := book s st in
  let m1 := match find (comp_of s) (OrderLookup.price info) m with
            | Some _ => unlink (comp_of s) (OrderLookup.price info) q m
            | None => m
            end in
  amend_order id (Some np) nq t st =
    (true,
     set_orders_by_id (<[id := OrderLookup.mk s np q]> (orders_by_id st))
       (set_book s (place (comp_of s) np q m1)
          (set_heap
             (<[q := Order.mk (Order.id o) (Order.side o) np
                       (default (Order.quantity o) nq) (Order.creation_time o) t
                       (Transaction.mk Amend t)]> (heap st)) st))).
Proof.
  intros Hi Ho Hne s q m m1. unfold deref in Ho. unfold amend_order.
  rewrite Hi, Ho. simpl. rewrite (proj2 (Z.eqb_neq np _)) by done. simpl.
  subst s q m m1. destruct info as [s p q]; simpl in *.
  destruct s; simpl; unfold amend_exe; simpl;
    destruct nq as [n|]; simpl; unfold store, set_heap, set_orders_by_id; simpl;
    rewrite !list_alter_alter_eq, (alter_insert _ _ _ _ Ho); done.
Qed.

Lemma amend_order_unknown id np nq t st :
  orders_by_id st !! id = None → amend_order id np nq t st = (false, st).
Proof. intros H. unfold amend_order. by rewrite H. Qed.

Lemma same_price_test (np : option Z) (p : Z) :
  np = None ∨ np = Some p → has_value np && negb (value_Z np =? p) = false.
Proof. intros [->| ->]; simpl; [done|]. by rewrite Z.eqb_refl. Qed.

Lemma amend_order_same id np nq t st info o :
  orders_by_id st !! id = Some info →
  deref st (OrderLookup.list_it info) = Some o →
  np = None ∨ np = Some (OrderLookup.price info) →
  nq = None ∨ nq = Some (Order.quantity o) →
  amend_order id np nq t st = (false, st).
Proof.
  intros Hi Ho Hp Hq. unfold deref in Ho. unfold amend_order. rewrite Hi, Ho. simpl.
  rewrite same_price_test by done.
  destruct Hq as [->| ->]; simpl; [done|]. by rewrite N.eqb_refl.
Qed.

Lemma amend_order_decrease id np n t st info o :
  orders_by_id st !! id = Some info →
  deref st (OrderLookup.list_it info) = Some o →
  np = None ∨ np = Some (OrderLookup.price info) →
  (n < Order.quantity o)%N →
  amend_order id np (Some n) t st =
    (true,
     set_heap
       (<[OrderLookup.list_it info :=
            Order.mk (Order.id o) (Order.side o) (Order.price o) n
              (Order.creation_time o) (Order.last_update_time o)
              (Transaction.mk Amend t)]> (heap st)) st).
Proof.
  intros Hi Ho Hp Hlt. unfold deref in Ho. unfold amend_order. rewrite Hi, Ho. simpl.
  rewrite same_price_test by done. simpl.
  rewrite (proj2 (N.eqb_neq n _)) by lia. simpl.
  rewrite (proj2 (N.ltb_lt n _)) by done.
  unfold store, set_heap; simpl.
  by rewrite list_alter_alter_eq, (alter_insert _ _ _ _ Ho).
Qed.

Lemma amend_order_increase id np n t st info o pl :
  orders_by_id st !! id = Some info →
  deref st (OrderLookup.list_it info) = Some o →
  level (OrderLookup.side info) (OrderLookup.price info) st = Some pl →
  np = None ∨ np = Some (OrderLookup.price info) →
  (Order.quantity o < n)%N →
  let s := OrderLookup.side info in
  let p := OrderLookup.price info in
  let q := OrderLookup.list_it info in
  amend_order id np (Some n) t st =
    (true,
     set_orders_by_id (<[id := OrderLookup.mk s p q]> (orders_by_id st))
       (set_book s
          (update (comp_of s) p (PriceLevel.push_back q)
             (update (comp_of s) p (PriceLevel.erase q) (book s st)))
          (set_heap
             (<[q := Order.mk (Order.id o) (Order.side o) (Order.price o) n
                       (Order.creation_time o) t (Transaction.mk Amend t)]>
                (heap st)) st))).
Proof.
  intros Hi Ho Hl Hp Hlt s p q. unfold deref in Ho. unfold level in Hl.
  unfold amend_order. rewrite Hi, Ho. simpl.
  rewrite same_price_test by done. simpl.
  rewrite (proj2 (N.eqb_neq n _)) by lia. simpl.
  rewrite (proj2 (N.ltb_ge n _)) by lia.
  subst s p q. destruct info as [s p q]; simpl in *.
  destruct s; simpl in *; unfold amend_exeCp; simpl; rewrite Hl;
    unfold store, set_heap, set_orders_by_id; simpl;
    by rewrite !list_alter_alter_eq, (alter_insert _ _ _ _ Ho).
Qed.



Lemma amend_order_false id np nq t st :
  (amend_order id np nq t st).1 = false → (amend_order id np nq t st).2 = st.
Proof.
  unfold amend_order, amend_exeCp.
  destruct (orders_by_id st !! id) as [info|]; [|done].
  destruct (heap st !! _) as [o|]; [|done]. simpl.
  destruct (has_value np && _).
  { by destruct (OrderLookup.side info). }
  destruct (has_value nq && _); simpl; [|done].
  destruct (_ <? _)%N; [done|].
  destruct (OrderLookup.side info); by destruct (find _ _ _).
Qed.

(** ** The representation invariant *)

Lemma wf_empty : wf empty_book.
Proof.
  split.
  - intros []; constructor.
  - by intros [] ???.
  - by intros [] ???.
  - intros ?? H. simpl in H. by rewrite lookup_empty in H.
  - by intros [] ????.
Qed.

(** An active order sits where the index says, and nowhere else. *)
Lemma wf_where st s p pl q id info :
  wf st → level s p st = Some pl → q ∈ PriceLevel.orders pl →
  orders_by_id st !! id = Some info → OrderLookup.list_it info = q →
  info = OrderLookup.mk s p q.
Proof.
  intros Hwf Hl Hq Hi Hit.
  destruct (wf_level _ Hwf _ _ _ _ Hl Hq) as (o & Ho & Hix).
  destruct (wf_index _ Hwf _ _ Hi) as (o' & _ & Ho' & Hid & _).
  rewrite Hit, Ho in Ho'. injection Ho' as <-. rewrite Hid, Hi in Hix. by injection Hix.
Qed.

(** Two active ids never share an order object. *)
Lemma wf_ptr_inj st id1 id2 i1 i2 :
  wf st → orders_by_id st !! id1 = Some i1 → orders_by_id st !! id2 = Some i2 →
  OrderLookup.list_it i1 = OrderLookup.list_it i2 → id1 = id2.
Proof.
  intros Hwf H1 H2 Heq.
  destruct (wf_index _ Hwf _ _ H1) as (o1 & _ & Ho1 & Hid1 & _).
  destruct (wf_index _ Hwf _ _ H2) as (o2 & _ & Ho2 & Hid2 & _).
  rewrite Heq, Ho2 in Ho1. injection Ho1 as ->. congruence.
Qed.

Lemma level_add_order id s p qty t st s' p' :
  orders_by_id st !! id = None →
  level s' p' (add_order id s p qty t st).2 =
    if decide (s = s' ∧ p = p')
    then Some (PriceLevel.push_back (length (heap st))
                 (default (PriceLevel.make p) (level s p st)))
    else level s' p' st.
Proof.
  intros Hi. rewrite add_order_ok by done. simpl.
  rewrite level_set_heap, level_set_orders_by_id, level_set_book.
  destruct (decide (s = s')) as [<-|Hs].
  - rewrite find_place. unfold level.
    destruct (decide (p = p')) as [<-|Hp].
    + by rewrite decide_True.
    + rewrite decide_False; [done|]. by intros [_ ?].
  - rewrite decide_False; [done|]. by intros [? _].
Qed.

Lemma wf_add_order id s p qty t st : wf st → wf (add_order id s p qty t st).2.
Proof.
  intros Hwf. destruct (orders_by_id st !! id) as [info|] eqn:Hi.
  { rewrite add_order_fail; [done|]. by eexists. }
  pose proof (level_add_order id s p qty t st) as Hlev.
  assert (Hfresh : ∀ s' p' pl, level s' p' st = Some pl →
                               length (heap st) ∉ PriceLevel.orders pl).
  { intros s' p' pl Hl Hin.
    destruct (wf_level _ Hwf _ _ _ _ Hl Hin) as (o & Ho%deref_lt & _). lia. }
  assert (Hold : ∀ q o, deref st q = Some o →
                        deref (add_order id s p qty t st).2 q = Some o).
  { intros q o Ho. rewrite add_order_ok by done. unfold deref in *; simpl.
    rewrite lookup_app_l; [done|]. by eapply lookup_lt_Some. }
  assert (Hnew : deref (add_order id s p qty t st).2 (length (heap st)) =
                 Some (Order.make id s p qty t)).
  { rewrite add_order_ok by done. unfold deref; simpl.
    by rewrite lookup_app_r, Nat.sub_diag by lia. }
  assert (Hix : orders_by_id (add_order id s p qty t st).2 =
                <[id := OrderLookup.mk s p (length (heap st))]> (orders_by_id st)).
  { by rewrite add_order_ok by done. }
  split.
  - intros s'. rewrite add_order_ok by done. simpl.
    rewrite book_set_heap, book_set_orders_by_id, book_set_book.
    case_decide as Hs; [subst s'; apply sorted_place|]; apply (wf_sorted _ Hwf).
  - intros s' p' pl. rewrite Hlev by done. case_decide as Hc.
    + intros [= <-]. simpl. by intros ?%app_nil_r_inv.
    + apply (wf_nonempty _ Hwf).
  - intros s' p' pl. rewrite Hlev by done. case_decide as Hc.
    + intros [= <-]. simpl. apply NoDup_app. split_and!.
      * destruct (level s p st) eqn:Hl; simpl; [|constructor].
        by eapply (wf_nodup _ Hwf).
      * intros x Hx ->%list_elem_of_singleton.
        destruct (level s p st) eqn:Hl; simpl in Hx; [|by apply elem_of_nil in Hx].
        by eapply Hfresh.
      * apply NoDup_singleton.
    + apply (wf_nodup _ Hwf).
  - intros id' info. rewrite Hix. rewrite lookup_insert.
    case_decide as Hid.
    + subst id'. intros [= <-]. simpl. eexists _, _. split_and!; try done.
      * by rewrite Hlev, decide_True.
      * simpl. apply elem_of_app. right. by apply list_elem_of_singleton.
    + intros Hi'. destruct (wf_index _ Hwf _ _ Hi') as (o & pl & Ho & ? & ? & ? & Hl & Hin).
      exists o.
      destruct (decide (s = OrderLookup.side info ∧ p = OrderLookup.price info))
        as [[Hs Hp]|Hc].
      * exists (PriceLevel.push_back (length (heap st)) pl).
        split_and!; try done; [by apply Hold| |].
        -- rewrite Hlev, decide_True by done. by rewrite Hs, Hp, Hl.
        -- simpl. apply elem_of_app. by left.
      * exists pl. split_and!; try done; [by apply Hold|].
        by rewrite Hlev, decide_False by done.
  - intros s' p' pl q. rewrite Hlev by done.
    assert (Hkeep : ∀ pl0, level s' p' st = Some pl0 → q ∈ PriceLevel.orders pl0 →
              ∃ o, deref (add_order id s p qty t st).2 q = Some o ∧
                   orders_by_id (add_order id s p qty t st).2 !! Order.id o =
                     Some (OrderLookup.mk s' p' q)).
    { intros pl0 Hl Hin.
      destruct (wf_level _ Hwf _ _ _ _ Hl Hin) as (o & Ho & Hio).
      exists o. split; [by apply Hold|].
      rewrite Hix, lookup_insert_ne; [done|]. intros Heq. congruence. }
    case_decide as Hc.
    + destruct Hc as [<- <-]. intros [= <-]. simpl.
      intros [Hin| ->%list_elem_of_singleton]%elem_of_app.
      * destruct (level s p st) eqn:Hl; simpl in Hin; [|by apply elem_of_nil in Hin].
        by eapply Hkeep.
      * eexists. split; [done|]. simpl. by rewrite Hix, lookup_insert_eq.
    + apply Hkeep.
Qed.

Lemma shrink_Some q pl pl' :
  shrink q pl = Some pl' ↔
    pl' = PriceLevel.erase q pl ∧ PriceLevel.orders (PriceLevel.erase q pl) ≠ [].
Proof.
  unfold shrink. case_bool_decide as He.
  - split; [done|]. by intros [_ ?].
  - split; [by intros [= <-]|]. by intros [-> _].
Qed.

Lemma shrink_keeps q q' pl :
  q' ∈ PriceLevel.orders pl → q' ≠ q → shrink q pl = Some (PriceLevel.erase q pl).
Proof.
  intros Hin Hne. apply shrink_Some. split; [done|]. simpl. intros He.
  assert (Hq : q' ∈ filter (λ x, x ≠ q) (PriceLevel.orders pl))
    by by apply (list_elem_of_filter (λ x, x ≠ q)).
  rewrite He in Hq. by apply elem_of_nil in Hq.
Qed.

Lemma elem_of_erase q q' pl :
  q' ∈ PriceLevel.orders (PriceLevel.erase q pl) ↔ q' ≠ q ∧ q' ∈ PriceLevel.orders pl.
Proof. simpl. apply (list_elem_of_filter (λ x, x ≠ q)). Qed.

Lemma level_remove_order id t st info pl s' p' :
  wf st →
  orders_by_id st !! id = Some info →
  level (OrderLookup.side info) (OrderLookup.price info) st = Some pl →
  level s' p' (remove_order id t st).2 =
    if decide (OrderLookup.side info = s' ∧ OrderLookup.price info = p')
    then shrink (OrderLookup.list_it info) pl
    else level s' p' st.
Proof.
  intros Hwf Hi Hl. rewrite (remove_order_ok _ _ _ _ _ Hi Hl). simpl.
  rewrite level_set_orders_by_id, level_set_book.
  destruct (decide (OrderLookup.side info = s')) as [<-|Hs].
  - rewrite find_unlink by apply (wf_sorted _ Hwf). unfold level in *.
    destruct (decide (OrderLookup.price info = p')) as [<-|Hp].
    + rewrite decide_True by done. by rewrite Hl.
    + rewrite decide_False; [done|]. by intros [_ ?].
  - rewrite decide_False; [done|]. by intros [? _].
Qed.

Lemma wf_remove_order id t st : wf st → wf (remove_order id t st).2.
Proof.
  intros Hwf. destruct (orders_by_id st !! id) as [info|] eqn:Hi.
  2: { by rewrite remove_order_fail. }
  destruct (wf_index _ Hwf _ _ Hi) as (o & pl & Ho & Hid & Hside & Hprice & Hl & Hin).
  pose proof (λ s' p', level_remove_order id t st info pl s' p' Hwf Hi Hl) as Hlev.
  assert (Hix : orders_by_id (remove_order id t st).2 = delete id (orders_by_id st)).
  { by rewrite (remove_order_ok _ _ _ _ _ Hi Hl). }
  assert (Hheap : ∀ q, deref (remove_order id t st).2 q = deref st q).
  { intros q. rewrite (remove_order_ok _ _ _ _ _ Hi Hl). unfold deref. simpl.
    by rewrite heap_set_book. }
  split.
  - intros s'. rewrite (remove_order_ok _ _ _ _ _ Hi Hl). simpl.
    rewrite book_set_orders_by_id, book_set_book.
    case_decide as Hs; [subst s'; apply sorted_unlink|]; apply (wf_sorted _ Hwf).
  - intros s' p' pl'. rewrite Hlev. case_decide as Hc.
    + by intros [-> ?]%shrink_Some.
    + apply (wf_nonempty _ Hwf).
  - intros s' p' pl'. rewrite Hlev. case_decide as Hc.
    + intros [-> ?]%shrink_Some. simpl. apply NoDup_filter.
      by eapply (wf_nodup _ Hwf).
    + apply (wf_nodup _ Hwf).
  - intros id' info'. rewrite Hix. intros [Hne Hi']%lookup_delete_Some.
    destruct (wf_index _ Hwf _ _ Hi')
      as (o' & pl' & Ho' & ? & ? & ? & Hl' & Hin').
    assert (Hq : OrderLookup.list_it info' ≠ OrderLookup.list_it info).
    { intros Heq. apply Hne. symmetry. by eapply wf_ptr_inj. }
    exists o'.
    destruct (decide (OrderLookup.side info = OrderLookup.side info' ∧
                      OrderLookup.price info = OrderLookup.price info'))
      as [[Hs Hp]|Hc].
    + exists (PriceLevel.erase (OrderLookup.list_it info) pl).
      rewrite <- Hs, <- Hp in Hl'. rewrite Hl in Hl'. injection Hl' as <-.
      split_and!; try done; [by rewrite Hheap| |by apply elem_of_erase].
      rewrite Hlev, decide_True by done. by eapply shrink_keeps.
    + exists pl'. split_and!; try done; [by rewrite Hheap|].
      by rewrite Hlev, decide_False.
  - intros s' p' pl' q. rewrite Hlev. rewrite Hix.
    assert (Hkeep : ∀ pl0, level s' p' st = Some pl0 → q ∈ PriceLevel.orders pl0 →
              q ≠ OrderLookup.list_it info →
              ∃ o, deref (remove_order id t st).2 q = Some o ∧
                   delete id (orders_by_id st) !! Order.id o =
                     Some (OrderLookup.mk s' p' q)).
    { intros pl0 Hl0 Hin0 Hne.
      destruct (wf_level _ Hwf _ _ _ _ Hl0 Hin0) as (o0 & Ho0 & Hio).
      exists o0. split; [by rewrite Hheap|].
      rewrite lookup_delete_ne; [done|]. intros Heq. rewrite <- Heq, Hi in Hio.
      injection Hio as ->. by apply Hne. }
    case_decide as Hc.
    + destruct Hc as [<- <-]. intros [-> _]%shrink_Some [Hne Hq]%elem_of_erase.
      by eapply Hkeep.
    + intros Hl' Hq. eapply Hkeep; [done..|]. intros ->. apply Hc.
      by rewrite (wf_where _ _ _ _ _ _ _ Hwf Hl' Hq Hi eq_refl).
Qed.

Lemma deref_set_heap_insert st q q' o o' :
  deref st q = Some o →
  deref (set_heap (<[q := o']> (heap st)) st) q' =
    if decide (q = q') then Some o' else deref st q'.
Proof.
  intros Ho. unfold deref in *. simpl. apply lookup_lt_Some in Ho.
  destruct (decide (q = q')) as [<-|Hne].
  - by apply list_lookup_insert_eq.
  - by apply list_lookup_insert_ne.
Qed.

Lemma level_amend_price id np nq t st info pl s' p' :
  wf st →
  orders_by_id st !! id = Some info →
  level (OrderLookup.side info) (OrderLookup.price info) st = Some pl →
  np ≠ OrderLookup.price info →
  level s' p' (amend_order id (Some np) nq t st).2 =
    if decide (OrderLookup.side info = s' ∧ np = p')
    then Some (PriceLevel.push_back (OrderLookup.list_it info)
                 (default (PriceLevel.make np) (level (OrderLookup.side info) np st)))
    else if decide (OrderLookup.side info = s' ∧ OrderLookup.price info = p')
    then shrink (OrderLookup.list_it info) pl
    else level s' p' st.
Proof.
  intros Hwf Hi Hl Hne.
  destruct (wf_index _ Hwf _ _ Hi) as (o & _ & Ho & _).
  rewrite (amend_order_price _ _ _ _ _ _ _ Hi Ho Hne). simpl.
  rewrite level_set_orders_by_id, level_set_book, level_set_heap.
  unfold level in *. rewrite Hl.
  destruct (decide (OrderLookup.side info = s')) as [<-|Hs].
  - rewrite find_place.
    destruct (decide (np = p')) as [<-|Hp].
    + rewrite decide_True by done.
      rewrite find_unlink by apply (wf_sorted _ Hwf).
      by rewrite decide_False by done.
    + rewrite (decide_False (P := _ ∧ np = p')) by (by intros [_ ?]).
      rewrite find_unlink by apply (wf_sorted _ Hwf).
      destruct (decide (OrderLookup.price info = p')) as [<-|Hp'].
      * rewrite decide_True by done. by rewrite Hl.
      * rewrite decide_False; [done|]. by intros [_ ?].
  - rewrite !decide_False; [done| |]; by intros [? _].
Qed.

Lemma wf_amend_price id np nq t st info :
  wf st →
  orders_by_id st !! id = Some info →
  np ≠ OrderLookup.price info →
  wf (amend_order id (Some np) nq t st).2.
Proof.
  intros Hwf Hi Hne.
  destruct (wf_index _ Hwf _ _ Hi) as (o & pl & Ho & Hid & Hside & Hprice & Hl & Hin).
  pose proof (λ s' p', level_amend_price id np nq t st info pl s' p' Hwf Hi Hl Hne)
    as Hlev.
  set (s := OrderLookup.side info) in *.
  set (p := OrderLookup.price info) in *.
  set (q := OrderLookup.list_it info) in *.
  set (o' := Order.mk (Order.id o) (Order.side o) np (default (Order.quantity o) nq)
               (Order.creation_time o) t (Transaction.mk Amend t)).
  assert (Hix : orders_by_id (amend_order id (Some np) nq t st).2 =
                <[id := OrderLookup.mk s np q]> (orders_by_id st)).
  { by rewrite (amend_order_price _ _ _ _ _ _ _ Hi Ho Hne). }
  assert (Hheap : ∀ q', deref (amend_order id (Some np) nq t st).2 q' =
                        if decide (q = q') then Some o' else deref st q').
  { intros q'. rewrite (amend_order_price _ _ _ _ _ _ _ Hi Ho Hne). simpl.
    unfold deref at 1. simpl. rewrite heap_set_book.
    by apply (deref_set_heap_insert st q q' o o'). }
  assert (Hnotnew : ∀ pl0, level s np st = Some pl0 → q ∉ PriceLevel.orders pl0).
  { intros pl0 Hl0 Hin0.
    pose proof (wf_where _ _ _ _ _ _ _ Hwf Hl0 Hin0 Hi eq_refl) as Hinfo.
    apply Hne. subst p. by rewrite Hinfo. }
  assert (Hother : ∀ s' p' pl0 q', level s' p' st = Some pl0 →
            q' ∈ PriceLevel.orders pl0 → q' ≠ q →
            ∃ o0, deref (amend_order id (Some np) nq t st).2 q' = Some o0 ∧
                  orders_by_id (amend_order id (Some np) nq t st).2 !! Order.id o0 =
                    Some (OrderLookup.mk s' p' q')).
  { intros s' p' pl0 q' Hl0 Hin0 Hq.
    destruct (wf_level _ Hwf _ _ _ _ Hl0 Hin0) as (o0 & Ho0 & Hio).
    exists o0. rewrite Hheap, decide_False by done. split; [done|].
    rewrite Hix, lookup_insert_ne; [done|]. intros Heq. rewrite <- Heq, Hi in Hio.
    apply Hq. subst q. injection Hio as ->. done. }
  split.
  - intros s'. rewrite (amend_order_price _ _ _ _ _ _ _ Hi Ho Hne). simpl.
    rewrite book_set_orders_by_id, book_set_book, book_set_heap.
    case_decide as Hs; [|apply (wf_sorted _ Hwf)]. rewrite <- Hs.
    apply sorted_place. unfold level in Hl. fold s p. rewrite Hl.
    apply sorted_unlink, (wf_sorted _ Hwf).
  - intros s' p' pl'. rewrite Hlev. repeat case_decide.
    + intros [= <-]. simpl. by intros ?%app_nil_r_inv.
    + by intros [-> ?]%shrink_Some.
    + apply (wf_nonempty _ Hwf).
  - intros s' p' pl'. rewrite Hlev. repeat case_decide.
    + intros [= <-]. simpl. apply NoDup_app. split_and!.
      * destruct (level s np st) eqn:Hl0; simpl; [|constructor].
        by eapply (wf_nodup _ Hwf).
      * intros x Hx ->%list_elem_of_singleton.
        destruct (level s np st) eqn:Hl0; simpl in Hx; [|by apply elem_of_nil in Hx].
        by eapply Hnotnew.
      * apply NoDup_singleton.
    + intros [-> ?]%shrink_Some. simpl. apply NoDup_filter.
      by eapply (wf_nodup _ Hwf).
    + apply (wf_nodup _ Hwf).
  - intros id' info'. rewrite Hix, lookup_insert. case_decide as Hid'.
    + subst id'. intros [= <-]. simpl. exists o'.
      exists (PriceLevel.push_back q (default (PriceLevel.make np) (level s np st))).
      split_and!; try done.
      * by rewrite Hheap, decide_True.
      * by rewrite Hlev, decide_True.
      * simpl. apply elem_of_app. right. by apply list_elem_of_singleton.
    + intros Hi'.
      destruct (wf_index _ Hwf _ _ Hi')
        as (o0 & pl0 & Ho0 & ? & ? & ? & Hl0 & Hin0).
      assert (Hq : OrderLookup.list_it info' ≠ q).
      { intros Heq. apply Hid'. by eapply wf_ptr_inj. }
      exists o0.
      destruct (decide (s = OrderLookup.side info' ∧ np = OrderLookup.price info'))
        as [[Hs Hp]|Hc1].
      { exists (PriceLevel.push_back q pl0).
        split_and!; try done.
        - by rewrite Hheap, decide_False.
        - rewrite Hlev, decide_True by done. by rewrite Hs, Hp, Hl0.
        - simpl. apply elem_of_app. by left. }
      destruct (decide (s = OrderLookup.side info' ∧ p = OrderLookup.price info'))
        as [[Hs Hp]|Hc2].
      { exists (PriceLevel.erase q pl).
        rewrite <- Hs, <- Hp, Hl in Hl0. injection Hl0 as <-.
        split_and!; try done.
        - by rewrite Hheap, decide_False.
        - rewrite Hlev, decide_False, decide_True by done. by eapply shrink_keeps.
        - by apply elem_of_erase. }
      exists pl0. split_and!; try done.
      * by rewrite Hheap, decide_False.
      * by rewrite Hlev, !decide_False.
  - intros s' p' pl' q'. rewrite Hlev. repeat case_decide.
    + destruct H as [<- <-]. intros [= <-]. simpl.
      intros [Hin'| ->%list_elem_of_singleton]%elem_of_app.
      * destruct (level s np st) eqn:Hl0; simpl in Hin'; [|by apply elem_of_nil in Hin'].
        eapply Hother; [done..|]. intros ->. by eapply Hnotnew.
      * exists o'. rewrite Hheap, decide_True by done. split; [done|].
        simpl. rewrite Hid. by rewrite Hix, lookup_insert_eq.
    + destruct H0 as [<- <-]. intros [-> _]%shrink_Some [Hq Hin']%elem_of_erase.
      by eapply Hother.
    + intros Hl' Hin'. eapply Hother; [done..|]. intros Heq. apply H0.
      rewrite Heq in Hin'.
      pose proof (wf_where _ _ _ _ _ _ _ Hwf Hl' Hin' Hi eq_refl) as E.
      subst s p. by rewrite E.
Qed.

(** A write to an order object that keeps its id, side and price. *)
Lemma wf_touch st q o o' :
  wf st → deref st q = Some o →
  Order.id o' = Order.id o → Order.side o' = Order.side o →
  Order.price o' = Order.price o →
  wf (set_heap (<[q := o']> (heap st)) st).
Proof.
  intros Hwf Ho Hid Hside Hprice.
  pose proof (λ q', deref_set_heap_insert st q q' o o' Ho) as Hheap.
  split.
  - intros s'. rewrite book_set_heap. apply (wf_sorted _ Hwf).
  - intros s' p' pl. rewrite level_set_heap. apply (wf_nonempty _ Hwf).
  - intros s' p' pl. rewrite level_set_heap. apply (wf_nodup _ Hwf).
  - intros id' info' Hi'. simpl in Hi'.
    destruct (wf_index _ Hwf _ _ Hi') as (o0 & pl0 & Ho0 & ? & ? & ? & Hl0 & Hin0).
    rewrite Hheap. setoid_rewrite level_set_heap. case_decide as Hq.
    + subst q. rewrite Ho in Ho0. injection Ho0 as <-.
      exists o', pl0. split_and!; congruence.
    + by exists o0, pl0.
  - intros s' p' pl q'. rewrite level_set_heap. intros Hl0 Hin0.
    destruct (wf_level _ Hwf _ _ _ _ Hl0 Hin0) as (o0 & Ho0 & Hio).
    rewrite Hheap. case_decide as Hq.
    + subst q. rewrite Ho in Ho0. injection Ho0 as <-.
      exists o'. split; [done|]. simpl. by rewrite Hid.
    + by exists o0.
Qed.

(** The order goes to the tail of its own level. *)
Lemma level_requeue st s p q pl s' p' ix :
  level s p st = Some pl →
  level s' p'
    (set_orders_by_id ix
       (set_book s
          (update (comp_of s) p (PriceLevel.push_back q)
             (update (comp_of s) p (PriceLevel.erase q) (book s st))) st)) =
    if decide (s = s' ∧ p = p')
    then Some (PriceLevel.push_back q (PriceLevel.erase q pl))
    else level s' p' st.
Proof.
  intros Hl. rewrite level_set_orders_by_id, level_set_book. unfold level in *.
  destruct (decide (s = s')) as [<-|Hs].
  - rewrite !(find_update (comp_of s)).
    destruct (decide (p = p')) as [Hp|Hp].
    + rewrite !decide_True by done. by rewrite Hl.
    + rewrite decide_False; [done|]. by intros [_ ?].
  - rewrite decide_False; [done|]. by intros [? _].
Qed.

Lemma wf_requeue st id info :
  wf st → orders_by_id st !! id = Some info →
  let s := OrderLookup.side info in
  let p := OrderLookup.price info in
  let q := OrderLookup.list_it info in
  wf (set_orders_by_id (<[id := OrderLookup.mk s p q]> (orders_by_id st))
        (set_book s
           (update (comp_of s) p (PriceLevel.push_back q)
              (update (comp_of s) p (PriceLevel.erase q) (book s st))) st)).
Proof.
  intros Hwf Hi. destruct info as [s p q]; simpl.
  destruct (wf_index _ Hwf _ _ Hi) as (o & pl & Ho & Hid & Hside & Hprice & Hl & Hin).
  simpl in *. rewrite (insert_id _ _ _ Hi).
  pose proof (λ s' p', level_requeue st s p q pl s' p' (orders_by_id st) Hl) as Hlev.
  assert (Hmem : ∀ x, x ∈ PriceLevel.orders (PriceLevel.push_back q (PriceLevel.erase q pl))
                      ↔ x ∈ PriceLevel.orders pl).
  { intros x. simpl. rewrite elem_of_app, list_elem_of_singleton.
    rewrite (list_elem_of_filter (λ y, y ≠ q)).
    destruct (decide (x = q)) as [->|Hx].
    - split; [done|]. intros _. by right.
    - split; [by intros [[_ ?]|?]|]. intros ?. by left. }
  assert (Hsorted : ∀ s',
    sorted (comp_of s')
      (book s' (set_orders_by_id (orders_by_id st)
         (set_book s
            (update (comp_of s) p (PriceLevel.push_back q)
               (update (comp_of s) p (PriceLevel.erase q) (book s st))) st)))).
  { intros s'. rewrite book_set_orders_by_id, book_set_book.
    case_decide as Hs; [subst s'|apply (wf_sorted _ Hwf)].
    do 2 apply (sorted_update (comp_of s)). apply (wf_sorted _ Hwf). }
  assert (Hix : orders_by_id (set_orders_by_id (orders_by_id st)
         (set_book s
            (update (comp_of s) p (PriceLevel.push_back q)
               (update (comp_of s) p (PriceLevel.erase q) (book s st))) st)) =
         orders_by_id st) by done.
  assert (Hheap : ∀ q', deref (set_orders_by_id (orders_by_id st)
         (set_book s
            (update (comp_of s) p (PriceLevel.push_back q)
               (update (comp_of s) p (PriceLevel.erase q) (book s st))) st)) q' =
         deref st q').
  { intros q'. unfold deref. simpl. by rewrite heap_set_book. }
  set (st' := set_orders_by_id _ _) in *. clearbody st'.
  split.
  - done.
  - intros s' p' pl'. rewrite Hlev. case_decide.
    + intros [= <-]. simpl. by intros ?%app_nil_r_inv.
    + apply (wf_nonempty _ Hwf).
  - intros s' p' pl'. rewrite Hlev. case_decide.
    + intros [= <-]. simpl. apply NoDup_app. split_and!.
      * apply NoDup_filter. by eapply (wf_nodup _ Hwf).
      * intros x [Hx _]%(list_elem_of_filter (λ y, y ≠ q)) ->%list_elem_of_singleton.
        done.
      * apply NoDup_singleton.
    + apply (wf_nodup _ Hwf).
  - intros id' info'. rewrite Hix. intros Hi'.
    destruct (wf_index _ Hwf _ _ Hi') as (o0 & pl0 & Ho0 & ? & ? & ? & Hl0 & Hin0).
    exists o0. rewrite Hheap.
    destruct (decide (s = OrderLookup.side info' ∧ p = OrderLookup.price info'))
      as [[Hs Hp]|Hc].
    + exists (PriceLevel.push_back q (PriceLevel.erase q pl)).
      rewrite <- Hs, <- Hp, Hl in Hl0. injection Hl0 as <-.
      split_and!; try done.
      * by rewrite Hlev, decide_True.
      * by apply Hmem.
    + exists pl0. split_and!; try done. by rewrite Hlev, decide_False.
  - intros s' p' pl' q'. rewrite Hlev, Hix, Hheap. case_decide as Hc.
    + destruct Hc as [<- <-]. intros [= <-] Hq'%Hmem.
      apply (wf_level _ Hwf _ _ _ _ Hl Hq').
    + apply (wf_level _ Hwf).
Qed.

Lemma wf_amend_order id np nq t st : wf st → wf (amend_order id np nq t st).2.
Proof.
  intros Hwf. destruct (orders_by_id st !! id) as [info|] eqn:Hi.
  2: { by rewrite amend_order_unknown. }
  destruct (wf_index _ Hwf _ _ Hi) as (o & pl & Ho & Hid & Hside & Hprice & Hl & Hin).
  assert (Hp : (∃ x, np = Some x ∧ x ≠ OrderLookup.price info) ∨
               (np = None ∨ np = Some (OrderLookup.price info))).
  { destruct np as [x|]; [|by right; left].
    destruct (decide (x = OrderLookup.price info)) as [->|]; [by right; right|].
    left. by exists x. }
  destruct Hp as [(x & -> & Hx)|Hp]; [by eapply wf_amend_price|].
  destruct nq as [n|]; [|by rewrite (amend_order_same _ _ _ _ _ _ _ Hi Ho Hp); auto].
  destruct (N.lt_trichotomy n (Order.quantity o)) as [Hlt|[->|Hgt]].
  - rewrite (amend_order_decrease _ _ _ _ _ _ _ Hi Ho Hp Hlt). simpl.
    by eapply wf_touch.
  - by rewrite (amend_order_same _ _ _ _ _ _ _ Hi Ho Hp); auto.
  - rewrite (amend_order_increase _ _ _ _ _ _ _ _ Hi Ho Hl Hp Hgt). simpl.
    set (o' := Order.mk _ _ _ _ _ _ _).
    assert (Hwf1 : wf (set_heap (<[OrderLookup.list_it info := o']> (heap st)) st))
      by by eapply wf_touch.
    pose proof (wf_requeue _ id info Hwf1 Hi) as H. simpl in H.
    by rewrite book_set_heap in H.
Qed.

Lemma wf_step op st : wf st → wf (step op st).2.
Proof.
  destruct op; simpl; auto using wf_add_order, wf_remove_order, wf_amend_order.
Qed.

(** The book keeps its invariant throughout. *)
Lemma reachable_wf st : reachable st → wf st.
Proof. induction 1; auto using wf_empty, wf_step. Qed.

Lemma reachable_run ops st : reachable st → reachable (run ops st).
Proof.
  revert st. induction ops as [|op ops IH]; intros st H; simpl; [done|].
  apply IH. by constructor.
Qed.

(** ** Failure of the three calls *)

Lemma get_order_Some id p st :
  get_order id st = Some p ↔
  ∃ info, orders_by_id st !! id = Some info ∧ OrderLookup.list_it info = p.
Proof.
  unfold get_order. destruct (orders_by_id st !! id) as [info|].
  - split; [intros [= <-]; by exists info|]. by intros (? & [= <-] & <-).
  - split; [done|]. by intros (? & ? & _).
Qed.



(** C9.  [remove_order] never reads its timestamp: with two timestamps it
    returns the same boolean and the same book. *)
Theorem remove_order_ignores_timestamp st id t1 t2 :
  remove_order id t1 st = remove_order id t2 st.
Proof. reflexivity. Qed.

(** ** The three behaviours of [amend_order] *)

(** What the index and the store say of an active order, in a state that
    satisfies the invariant. *)
Lemma active_order st id p o :
  wf st → get_order id st = Some p → deref st p = Some o →
  ∃ info pl,
    orders_by_id st !! id = Some info ∧
    info = OrderLookup.mk (Order.side o) (Order.price o) p ∧
    Order.id o = id ∧
    level (Order.side o) (Order.price o) st = Some pl ∧
    p ∈ PriceLevel.orders pl.
Proof.
  intros Hwf (info & Hi & <-)%get_order_Some Ho.
  destruct (wf_index _ Hwf _ _ Hi) as (o' & pl & Ho' & Hid & Hside & Hprice & Hl & Hin).
  rewrite Ho in Ho'. injection Ho' as <-.
  exists info, pl. rewrite Hside, Hprice. split_and!; try done. by destruct info.
Qed.

(** The effect of a quantity decrease at the same price. *)
Lemma amend_decrease_effect st id p o np q' t :
  wf st →
  get_order id st = Some p → deref st p = Some o →
  np = None ∨ np = Some (Order.price o) →
  (q' < Order.quantity o)%N →
  let r := amend_order id np (Some q') t st in
  r.1 = true ∧
  deref r.2 p =
    Some (Order.mk (Order.id o) (Order.side o) (Order.price o) q'
            (Order.creation_time o) (Order.last_update_time o)
            (Transaction.mk Amend t)) ∧
  bid_book r.2 = bid_book st ∧
  ask_book r.2 = ask_book st ∧
  orders_by_id r.2 = orders_by_id st ∧
  (∀ s price, orders_at s price r.2 = orders_at s price st) ∧
  (∀ p', p' ≠ p → deref r.2 p' = deref st p') ∧
  (∀ id' p', id' ≠ id → get_order id' st = Some p' → deref r.2 p' = deref st p').
Proof.
  intros Hwf Hg Ho Hp Hlt r.
  destruct (active_order _ _ _ _ Hwf Hg Ho) as (info & pl & Hi & Hinfo & Hid & Hl & Hin).
  assert (Hit : OrderLookup.list_it info = p) by by rewrite Hinfo.
  assert (Hpi : OrderLookup.price info = Order.price o) by by rewrite Hinfo.
  rewrite <- Hit in Ho. rewrite <- Hpi in Hp.
  subst r. rewrite (amend_order_decrease _ _ _ _ _ _ _ Hi Ho Hp Hlt).
  rewrite Hit in *. cbn [fst snd].
  assert (Hother : ∀ p', p' ≠ p →
            deref (set_heap (<[p := Order.mk (Order.id o) (Order.side o)
                     (Order.price o) q' (Order.creation_time o)
                     (Order.last_update_time o) (Transaction.mk Amend t)]>
                     (heap st)) st) p' = deref st p').
  { intros p' Hne. rewrite (deref_set_heap_insert _ _ _ _ _ Ho).
    by rewrite decide_False. }
  split; [done|]. split.
  { rewrite (deref_set_heap_insert _ _ _ _ _ Ho). by rewrite decide_True. }
  do 3 (split; [done|]). split.
  { intros s price. by rewrite !orders_at_level, level_set_heap. }
  split; [done|].
  intros id' p' Hne (info' & Hi' & Hit')%get_order_Some. apply Hother.
  intros ->. apply Hne. eapply wf_ptr_inj; [done..|]. congruence.
Qed.


(** C10.  In a reachable state, an amend of an active order of quantity
    [q > 0] to quantity 0, without a new price, returns true; the order stays
    active with quantity 0, [get_order] still returns it, and it keeps its
    place in its level. *)
Theorem amend_to_zero_keeps_order st id p o t :
  reachable st →
  get_order id st = Some p → deref st p = Some o →
  (0 < Order.quantity o)%N →
  let r := amend_order id None (Some 0%N) t st in
  r.1 = true ∧
  active id r.2 ∧
  get_order id r.2 = Some p ∧
  Order.quantity <$> deref r.2 p = Some 0%N ∧
  p ∈ orders_at (Order.side o) (Order.price o) r.2 ∧
  (∀ s price, orders_at s price r.2 = orders_at s price st).
Proof.
  intros Hwf%reachable_wf Hg Ho Hlt r.
  destruct (amend_decrease_effect st id p o None 0%N t) as
    (H1 & H2 & H3 & H4 & H5 & H6 & _); auto.
  destruct (active_order _ _ _ _ Hwf Hg Ho) as (info & pl & Hi & Hinfo & Hid & Hl & Hin).
  subst r. split_and!; try done.
  - unfold active. rewrite H5, Hi. by eexists.
  - unfold get_order in *. by rewrite H5.
  - by rewrite H2.
  - by rewrite H6, orders_at_level, Hl.
Qed.


Lemma orders_at_shrink q pl :
  from_option PriceLevel.orders [] (shrink q pl) =
    filter (λ x, x ≠ q) (PriceLevel.orders pl).
Proof. unfold shrink. case_bool_decide as He; simpl; [by rewrite <- He|done]. Qed.



(** ** Invariants of the reachable states *)




(** An entry of a side is the level of its price. *)
Lemma entry_level s k pl st :
  wf st → (k, pl) ∈ book s st → level s k st = Some pl.
Proof. intros Hwf. apply (elem_of_find (comp_of s)), (wf_sorted _ Hwf). Qed.

Lemma elem_of_concat {A} (x : A) (ls : list (list A)) :
  x ∈ concat ls ↔ ∃ l, l ∈ ls ∧ x ∈ l.
Proof.
  induction ls as [|l ls IH]; simpl.
  - split; [by intros ?%elem_of_nil|]. by intros (? & ?%elem_of_nil & _).
  - rewrite elem_of_app, IH. split.
    + intros [H|(l' & H1 & H2)]; [exists l; split; [left|done]|].
      exists l'. split; [by right|done].
    + intros (l' & [->|H1]%elem_of_cons & H2); [by left|]. right. by exists l'.
Qed.

Lemma elem_of_orders_on_side s q st :
  wf st →
  q ∈ orders_on_side s st ↔ ∃ k pl, level s k st = Some pl ∧ q ∈ PriceLevel.orders pl.
Proof.
  intros Hwf. rewrite orders_on_side_book. rewrite elem_of_concat. split.
  - intros (l & Hl & Hq). apply list_elem_of_fmap in Hl as ([k pl] & -> & Hin).
    exists k, pl. split; [by apply entry_level|done].
  - intros (k & pl & Hl & Hq). exists (PriceLevel.orders pl). split; [|done].
    apply list_elem_of_fmap. exists (k, pl). split; [done|].
    by apply (find_elem_of (comp_of s)).
Qed.

Lemma NoDup_levels (m : list (Z * PriceLevel.t)) :
  NoDup (keys m) →
  (∀ k pl, (k, pl) ∈ m → NoDup (PriceLevel.orders pl)) →
  (∀ k pl k' pl' q, (k, pl) ∈ m → (k', pl') ∈ m →
     q ∈ PriceLevel.orders pl → q ∈ PriceLevel.orders pl' → k = k') →
  NoDup (concat (map (λ kv, PriceLevel.orders kv.2) m)).
Proof.
  induction m as [|[k pl] m IH]; simpl; intros Hk Hnd Hloc; [constructor|].
  unfold keys in Hk; simpl in Hk. apply NoDup_cons in Hk as [Hk Hks].
  apply NoDup_app. split_and!.
  - apply (Hnd k). left.
  - intros q Hq (l & Hl & Hql)%elem_of_concat.
    apply list_elem_of_fmap in Hl as ([k' pl'] & -> & Hin). simpl in Hql.
    assert (k = k') as <-.
    { apply (Hloc k pl k' pl' q); [left|by right|done|done]. }
    apply Hk. apply list_elem_of_fmap. by exists (k, pl').
  - apply IH; [done| |].
    + intros k' pl' Hin. apply (Hnd k'). by right.
    + intros k1 pl1 k2 pl2 q H1 H2. apply Hloc; by right.
Qed.

Lemma NoDup_orders_on_side s st : wf st → NoDup (orders_on_side s st).
Proof.
  intros Hwf. rewrite orders_on_side_book. apply NoDup_levels.
  - apply (sorted_NoDup (comp_of s)), (wf_sorted _ Hwf).
  - intros k pl Hin. eapply (wf_nodup _ Hwf), entry_level; done.
  - intros k pl k' pl' q H1%(entry_level _ _ _ _ Hwf) H2%(entry_level _ _ _ _ Hwf) Hq Hq'.
    destruct (wf_level _ Hwf _ _ _ _ H1 Hq) as (o & Ho & Hi).
    destruct (wf_level _ Hwf _ _ _ _ H2 Hq') as (o' & Ho' & Hi').
    rewrite Ho in Ho'. injection Ho' as <-. rewrite Hi in Hi'. by injection Hi'.
Qed.

Lemma NoDup_ids_of st (l : list ptr) :
  NoDup l →
  (∀ x y ox oy, x ∈ l → y ∈ l → deref st x = Some ox → deref st y = Some oy →
                Order.id ox = Order.id oy → x = y) →
  NoDup (ids_of st l).
Proof.
  unfold ids_of. induction 1 as [|x l Hx Hl IH]; simpl; intros Hinj; [constructor|].
  assert (IH' : NoDup (omap (λ p, Order.id <$> deref st p) l)).
  { apply IH. intros a b oa ob Ha Hb. apply Hinj; by right. }
  destruct (deref st x) as [ox|] eqn:Hox; simpl; [|done].
  constructor; [|done].
  intros (y & Hy & Hid)%list_elem_of_omap.
  destruct (deref st y) as [oy|] eqn:Hoy; simpl in Hid; [|done].
  injection Hid as Hid. apply Hx.
  rewrite (Hinj x y ox oy); [done|left|by right|done|done|done].
Qed.

Lemma occurrences_notin (id : string) (l : list string) :
  id ∉ l → occurrences id l = 0%nat.
Proof.
  unfold occurrences. induction l as [|x l IH]; intros Hin; [done|].
  apply not_elem_of_cons in Hin as [Hne Hin].
  rewrite filter_cons_False by (by intros ->). auto.
Qed.

Lemma occurrences_NoDup (id : string) (l : list string) :
  NoDup l → id ∈ l → occurrences id l = 1%nat.
Proof.
  induction 1 as [|x l Hx Hl IH]; intros Hin.
  - by apply elem_of_nil in Hin.
  - unfold occurrences. apply elem_of_cons in Hin as [<-|Hin].
    + rewrite filter_cons_True by done. simpl. f_equal.
      by apply occurrences_notin.
    + rewrite filter_cons_False by (intros ->; done). by apply IH.
Qed.


(** ** Crossed market *)






(** ** Shared pointers handed out by the queries *)

Lemma elem_of_scan keep p st :
  p ∈ scan keep st → ∃ o, deref st p = Some o ∧ keep o = true.
Proof.
  unfold scan. intros ([id info] & _ & H)%list_elem_of_omap. simpl in H.
  fold (deref st (OrderLookup.list_it info)) in H.
  destruct (deref st (OrderLookup.list_it info)) as [o|] eqn:Ho; [|done].
  destruct (keep o) eqn:Hk; [|done]. injection H as <-. by exists o.
Qed.

(** A query only hands out pointers to live order objects. *)
Lemma returned_deref st p : wf st → returned st p → is_Some (deref st p).
Proof.
  intros Hwf [id Hg|s price Hin|s Hin|t Hin|t Hin|t Hin|t Hin].
  - apply get_order_Some in Hg as (info & Hi & <-).
    destruct (wf_index _ Hwf _ _ Hi) as (o & _ & Ho & _). by exists o.
  - rewrite orders_at_level in Hin.
    destruct (level s price st) as [pl|] eqn:Hl; simpl in Hin;
      [|by apply elem_of_nil in Hin].
    destruct (wf_level _ Hwf _ _ _ _ Hl Hin) as (o & Ho & _). by exists o.
  - apply elem_of_orders_on_side in Hin as (k & pl & Hl & Hin); [|done].
    destruct (wf_level _ Hwf _ _ _ _ Hl Hin) as (o & Ho & _). by exists o.
  - apply elem_of_scan in Hin as (o & Ho & _). by exists o.
  - apply elem_of_scan in Hin as (o & Ho & _). by exists o.
  - apply elem_of_scan in Hin as (o & Ho & _). by exists o.
  - apply elem_of_scan in Hin as (o & Ho & _). by exists o.
Qed.

Lemma deref_add_order id s price qty t st p :
  is_Some (deref st p) → deref (add_order id s price qty t st).2 p = deref st p.
Proof.
  intros [o Ho]. destruct (orders_by_id st !! id) as [info|] eqn:Hi.
  - rewrite add_order_fail; [done|]. by eexists.
  - rewrite add_order_ok by done. unfold deref in *. simpl.
    apply lookup_app_l. by eapply lookup_lt_Some.
Qed.

Lemma deref_remove_order id t st p : deref (remove_order id t st).2 p = deref st p.
Proof.
  unfold remove_order, remove_exe. destruct (orders_by_id st !! id) as [info|]; [|done].
  destruct (OrderLookup.side info); by destruct (find _ _ _).
Qed.

Lemma deref_amend_order id np nq t st p :
  wf st → get_order id st ≠ Some p →
  deref (amend_order id np nq t st).2 p = deref st p.
Proof.
  intros Hwf Hg. destruct (orders_by_id st !! id) as [info|] eqn:Hi.
  2: { by rewrite amend_order_unknown. }
  assert (Hne : OrderLookup.list_it info ≠ p).
  { intros <-. apply Hg. unfold get_order. by rewrite Hi. }
  destruct (wf_index _ Hwf _ _ Hi) as (o & pl & Ho & Hid & Hside & Hprice & Hl & Hin).
  assert (Hins : ∀ o', deref (set_heap (<[OrderLookup.list_it info := o']> (heap st)) st) p
                       = deref st p).
  { intros o'. rewrite (deref_set_heap_insert _ _ _ _ _ Ho). by rewrite decide_False. }
  assert (Hp : (∃ x, np = Some x ∧ x ≠ OrderLookup.price info) ∨
               (np = None ∨ np = Some (OrderLookup.price info))).
  { destruct np as [x|]; [|by right; left].
    destruct (decide (x = OrderLookup.price info)) as [->|]; [by right; right|].
    left. by exists x. }
  destruct Hp as [(x & -> & Hx)|Hp].
  { rewrite (amend_order_price _ _ _ _ _ _ _ Hi Ho Hx). unfold deref at 1. simpl.
    rewrite heap_set_book. apply Hins. }
  destruct nq as [n|]; [|by rewrite (amend_order_same _ _ _ _ _ _ _ Hi Ho Hp); auto].
  destruct (N.lt_trichotomy n (Order.quantity o)) as [Hlt|[->|Hgt]].
  - rewrite (amend_order_decrease _ _ _ _ _ _ _ Hi Ho Hp Hlt). apply Hins.
  - by rewrite (amend_order_same _ _ _ _ _ _ _ Hi Ho Hp); auto.
  - rewrite (amend_order_increase _ _ _ _ _ _ _ _ Hi Ho Hl Hp Hgt).
    unfold deref at 1. simpl. rewrite heap_set_book. apply Hins.
Qed.



(** ** Time priority *)


Lemma StronglySorted_ext_in {A} (R R' : relation A) (l : list A) :
  (∀ x y, x ∈ l → y ∈ l → R x y → R' x y) →
  StronglySorted R l → StronglySorted R' l.
Proof.
  induction l as [|x l IH]; intros Hext Hs; [constructor|].
  apply StronglySorted_cons in Hs as [Hall Hs].
  apply StronglySorted_cons. split.
  - rewrite Forall_forall in *. intros y Hy.
    apply Hext; [left|by right|by apply Hall].
  - apply IH; [|done]. intros a b Ha Hb. apply Hext; by right.
Qed.


















(** * The scenarios of the specification *)

Example scenario_1 :
  ids_of (run two_bids empty_book) (orders_at Bid 50 (run two_bids empty_book)) =
    ["1"; "2"].
Proof. reflexivity. Qed.

Example scenario_2 :
  let st := (amend_order "1" None (Some 500%N) 3 (run two_bids empty_book)).2 in
  ids_of st (orders_at Bid 50 st) = ["2"; "1"] ∧
  Order.quantity <$> (get_order "1" st ≫= deref st) = Some 500%N.
Proof. split; reflexivity. Qed.

Example scenario_3 :
  let st := (amend_order "2" None (Some 200%N) 4
               (amend_order "1" None (Some 500%N) 3 (run two_bids empty_book)).2).2 in
  ids_of st (orders_at Bid 50 st) = ["2"; "1"] ∧
  Order.quantity <$> (get_order "2" st ≫= deref st) = Some 200%N.
Proof. split; reflexivity. Qed.

Example scenario_4 :
  top_price Bid (run ask_and_bid empty_book) = Some 51 ∧
  top_price Ask (run ask_and_bid empty_book) = Some 55 ∧
  is_crossed (run ask_and_bid empty_book) = false.
Proof. repeat split. Qed.

Example scenario_5 :
  let st := (amend_order "3" (Some 50) None 3 (run ask_and_bid empty_book)).2 in
  top_price Ask st = Some 50 ∧ is_crossed st = true.
Proof. split; reflexivity. Qed.

Example scenario_6 :
  remove_order "zzz" 0 empty_book = (false, empty_book) ∧
  num_price_levels Bid empty_book = 0%nat ∧ num_price_levels Ask empty_book = 0%nat.
Proof. repeat split. Qed.

(** * The properties on the sample runs *)

Lemma reachable_two_bids : reachable (run two_bids empty_book).
Proof. apply reachable_run, reachable_empty. Defined.










Lemma amend_to_zero_keeps_order_witness :
  (amend_order "1" None (Some 0%N) 3 (run two_bids empty_book)).1 = true ∧
  active "1" (amend_order "1" None (Some 0%N) 3 (run two_bids empty_book)).2 ∧
  get_order "1" (amend_order "1" None (Some 0%N) 3 (run two_bids empty_book)).2 =
    Some 0%nat ∧
  Order.quantity <$>
    deref (amend_order "1" None (Some 0%N) 3 (run two_bids empty_book)).2 0%nat =
    Some 0%N ∧
  0%nat ∈ orders_at Bid 50
            (amend_order "1" None (Some 0%N) 3 (run two_bids empty_book)).2 ∧
  (∀ s price,
     orders_at s price (amend_order "1" None (Some 0%N) 3 (run two_bids empty_book)).2 =
     orders_at s price (run two_bids empty_book)).
Proof.
  apply (amend_to_zero_keeps_order (run two_bids empty_book) "1" 0%nat
           (Order.make "1" Bid 50 400%N 1) 3).
  - exact reachable_two_bids.
  - reflexivity.
  - reflexivity.
  - reflexivity.
Defined.

(** * Further properties of the book *)

(** ** What [add_order] and [remove_order] do *)




(** ** An order added and removed again *)

Section PriceMapRoundTrip.
Context {V : Type}.
Variable comp : Z → Z → bool.
Context `{!Compare comp}.

Implicit Types (m : list (Z * V)) (k : Z) (v : V).

Lemma update_update k (f g : V → V) m :
  update comp k f (update comp k g m) = update comp k (f ∘ g) m.
Proof.
  induction m as [|[k' v'] m IH]; simpl; [done|].
  destruct (equiv comp k k') eqn:E; simpl; rewrite E; [done|]. by rewrite IH.
Qed.

Lemma update_id k (f : V → V) m :
  (∀ v, find comp k m = Some v → f v = v) → update comp k f m = m.
Proof.
  induction m as [|[k' v'] m IH]; simpl; intros Hf; [done|].
  destruct (equiv comp k k') eqn:E.
  - by rewrite Hf.
  - by rewrite IH.
Qed.

Lemma erase_update k (f : V → V) m :
  erase comp k (update comp k f m) = erase comp k m.
Proof.
  induction m as [|[k' v'] m IH]; simpl; [done|].
  destruct (equiv comp k k') eqn:E; simpl; rewrite E; [done|]. by rewrite IH.
Qed.

Lemma erase_emplace k v m :
  find comp k m = None → erase comp k (emplace comp k v m) = m.
Proof.
  induction m as [|[k' v'] m IH]; simpl.
  - intros _. by rewrite (equiv_refl comp).
  - destruct (equiv comp k k') eqn:E; [done|]. intros Hf.
    destruct (comp k k') eqn:E1; simpl.
    + by rewrite (equiv_refl comp).
    + destruct (comp k' k) eqn:E2; simpl.
      * rewrite E. by rewrite IH.
      * unfold equiv in E. by rewrite E1, E2 in E.
Qed.
End PriceMapRoundTrip.

Lemma erase_push_back q pl :
  q ∉ PriceLevel.orders pl →
  PriceLevel.erase q (PriceLevel.push_back q pl) = pl.
Proof.
  intros Hq. destruct pl as [p l]. unfold PriceLevel.erase, PriceLevel.push_back.
  simpl in *. f_equal. rewrite filter_app, filter_cons_False, filter_nil, app_nil_r
    by (by intros ?).
  clear -Hq. induction l as [|x l IH]; [done|].
  apply not_elem_of_cons in Hq as [Hne Hq].
  rewrite filter_cons_True by done. by rewrite IH.
Qed.

Lemma unlink_place s p q m :
  (∀ pl, find (comp_of s) p m = Some pl →
         (q ∉ PriceLevel.orders pl) ∧ PriceLevel.orders pl ≠ []) →
  unlink (comp_of s) p q (place (comp_of s) p q m) = m.
Proof.
  intros Hm. unfold place, unlink.
  rewrite (update_update (comp_of s)), (find_update (comp_of s)), decide_True by done.
  destruct (find (comp_of s) p m) as [pl|] eqn:Hf.
  - destruct (Hm pl eq_refl) as [Hq Hne]. rewrite Hf.
    change ((PriceLevel.erase q ∘ PriceLevel.push_back q) <$> Some pl)
      with (Some (PriceLevel.erase q (PriceLevel.push_back q pl))).
    rewrite erase_push_back by done. rewrite bool_decide_false by done.
    apply (update_id (comp_of s)). intros v. rewrite Hf. intros [= <-].
    by apply erase_push_back.
  - rewrite (find_emplace (comp_of s)), decide_True by done.
    change ((PriceLevel.erase q ∘ PriceLevel.push_back q) <$> Some (PriceLevel.make p))
      with (Some (PriceLevel.erase q (PriceLevel.push_back q (PriceLevel.make p)))).
    rewrite erase_push_back by (simpl; apply not_elem_of_nil).
    rewrite bool_decide_true by done.
    rewrite (erase_update (comp_of s)). by apply (erase_emplace (comp_of s)).
Qed.

(** X3.  In a reachable state, adding an order under an id that is not active
    and removing it again gives back both sides and the index as they were;
    the order objects of the book are untouched. *)
Theorem add_then_remove id s price qty t t' st :
  reachable st → ¬ active id st →
  let r := remove_order id t' (add_order id s price qty t st).2 in
  r.1 = true ∧
  bid_book r.2 = bid_book st ∧
  ask_book r.2 = ask_book st ∧
  orders_by_id r.2 = orders_by_id st ∧
  (∀ p o, deref st p = Some o → deref r.2 p = Some o).
Proof.
  intros Hwf%reachable_wf Hna r.
  assert (Hi : orders_by_id st !! id = None).
  { destruct (orders_by_id st !! id) eqn:E; [|done]. exfalso. apply Hna. by eexists. }
  set (q := length (heap st)).
  set (info := OrderLookup.mk s price q).
  assert (Hi1 : orders_by_id (add_order id s price qty t st).2 !! id = Some info).
  { rewrite add_order_ok by done. simpl. by rewrite lookup_insert_eq. }
  assert (Hl1 : level (OrderLookup.side info) (OrderLookup.price info)
                  (add_order id s price qty t st).2 =
                Some (PriceLevel.push_back q
                        (default (PriceLevel.make price) (level s price st)))).
  { simpl. by rewrite level_add_order, decide_True. }
  assert (Hr : r = (true,
    set_orders_by_id (orders_by_id st)
      (set_book s (book s st) (set_heap (heap st ++ [Order.make id s price qty t]) st)))).
  { subst r. rewrite (remove_order_ok _ _ _ _ _ Hi1 Hl1).
    rewrite add_order_ok by done. simpl.
    rewrite book_set_heap, book_set_orders_by_id, book_set_book, decide_True by done.
    rewrite delete_insert_id by done. fold q.
    rewrite unlink_place; [by destruct s|].
    intros pl Hf. split; [|by eapply (wf_nonempty _ Hwf)].
    intros Hin. destruct (wf_level _ Hwf s price pl q Hf Hin) as (o & Ho%deref_lt & _).
    subst q. lia. }
  rewrite Hr. split_and!; try done.
  - by destruct s.
  - by destruct s.
  - intros p o Ho. unfold deref in *. simpl. rewrite heap_set_book. simpl.
    rewrite lookup_app_l; [done|]. by eapply lookup_lt_Some.
Qed.

(** ** Price priority *)

Lemma bottom_price_book s st : bottom_price s st = last (keys (book s st)).
Proof. unfold keys. rewrite fmap_last. by destruct s. Qed.

Lemma sorted_last_after {A} (R : relation A) (l : list A) (b x : A) :
  StronglySorted R l → last l = Some b → x ∈ l → x = b ∨ R x b.
Proof.
  induction l as [|y l IH]; intros Hs Hl Hx; [done|].
  apply StronglySorted_cons in Hs as [Hall Hs].
  destruct l as [|z l].
  - simpl in Hl. injection Hl as <-. apply list_elem_of_singleton in Hx. by left.
  - rewrite last_cons_cons in Hl.
    apply elem_of_cons in Hx as [->|Hx]; [|by apply IH].
    right. rewrite Forall_forall in Hall. apply Hall.
    apply last_Some in Hl as [l' ->]. apply elem_of_app. right. left.
Qed.

Lemma comp_of_better s a b : comp_of s a b = true → at_least_as_good s a b.
Proof. destruct s; unfold comp_of, DescPrice, AscePrice; simpl; lia. Qed.

(** X4.  In a reachable state, [price_levels] lists the prices of a side in
    strict price priority: strictly descending for the bids, strictly
    ascending for the asks (so no price comes twice). *)
Theorem price_levels_in_priority st :
  reachable st →
  StronglySorted (λ a b, a > b) (price_levels Bid st) ∧
  StronglySorted (λ a b, a < b) (price_levels Ask st).
Proof.
  intros Hwf%reachable_wf. split.
  - pose proof (wf_sorted _ Hwf Bid) as Hs. rewrite price_levels_keys.
    eapply StronglySorted_ext_in; [|exact Hs]. simpl. unfold DescPrice.
    intros a b _ _. lia.
  - pose proof (wf_sorted _ Hwf Ask) as Hs. rewrite price_levels_keys.
    eapply StronglySorted_ext_in; [|exact Hs]. simpl. unfold AscePrice.
    intros a b _ _. lia.
Qed.

(** X5.  In a reachable state, [top_price] and [bottom_price] of a side are
    empty exactly when the side has no level; otherwise the top price is a
    level at least as good as every level of the side, and the bottom price a
    level that every level of the side is at least as good as. *)
Theorem top_and_bottom_price s st :
  reachable st →
  (top_price s st = None ↔ num_price_levels s st = 0%nat) ∧
  (bottom_price s st = None ↔ num_price_levels s st = 0%nat) ∧
  (∀ a, top_price s st = Some a →
        a ∈ price_levels s st ∧
        ∀ p, p ∈ price_levels s st → at_least_as_good s a p) ∧
  (∀ b, bottom_price s st = Some b →
        b ∈ price_levels s st ∧
        ∀ p, p ∈ price_levels s st → at_least_as_good s p b).
Proof.
  intros Hwf%reachable_wf. pose proof (wf_sorted _ Hwf s) as Hs.
  rewrite top_price_book, bottom_price_book, num_price_levels_length,
    price_levels_keys.
  unfold sorted in Hs. unfold keys in *.
  replace (length (book s st)) with (length ((book s st).*1))
    by apply length_fmap.
  destruct ((book s st).*1) as [|k l] eqn:Hk.
  { split_and!; try done. }
  split_and!.
  - done.
  - split; [|done]. intros Hl. apply last_None in Hl. done.
  - intros a [= <-]. split; [left|].
    intros p [->|Hp]%elem_of_cons.
    + destruct s; simpl; lia.
    + apply comp_of_better. apply StronglySorted_cons in Hs as [Hall _].
      rewrite Forall_forall in Hall. auto.
  - intros b Hb. split.
    + apply last_Some in Hb as [l' ->]. apply elem_of_app. right. left.
    + intros p Hp.
      destruct (sorted_last_after _ _ b p Hs Hb Hp) as [->|Hlt].
      * destruct s; simpl; lia.
      * by apply comp_of_better.
Qed.

Lemma head_keys_emplace {V} (comp : Z → Z → bool) (k : Z) (v : V) m :
  head (keys (emplace comp k v m)) =
    Some (match head (keys m) with
          | None => k
          | Some k' => if comp k k' then k else k'
          end).
Proof.
  unfold keys. destruct m as [|[k' v'] m]; simpl; [done|].
  destruct (comp k k'); simpl; [done|]. by destruct (comp k' k).
Qed.

(** X6.  In a reachable state, after [add_order] of an id that is not active
    the top price of the order's side is the better of the new price and the
    former top price (the new price when the side was empty), and the top
    price of the other side is as before. *)
Theorem top_price_after_add id s price qty t st :
  reachable st → ¬ active id st →
  let r := add_order id s price qty t st in
  top_price s r.2 =
    Some (match top_price s st with
          | None => price
          | Some a => better_of s a price
          end) ∧
  (∀ s', s' ≠ s → top_price s' r.2 = top_price s' st).
Proof.
  intros Hwf%reachable_wf Hna r.
  assert (Hi : orders_by_id st !! id = None).
  { destruct (orders_by_id st !! id) eqn:E; [|done]. exfalso. apply Hna. by eexists. }
  assert (Hb : ∀ s', book s' r.2 =
            if decide (s = s') then place (comp_of s) price (length (heap st)) (book s st)
            else book s' st).
  { intros s'. subst r. rewrite add_order_ok by done. simpl.
    by rewrite book_set_heap, book_set_orders_by_id, book_set_book. }
  split.
  - rewrite !top_price_book, Hb, decide_True by done. unfold place.
    rewrite (keys_update (comp_of s)).
    pose proof (wf_sorted _ Hwf s) as Hs.
    destruct (find (comp_of s) price (book s st)) as [pl|] eqn:Hf.
    + assert (Hin : price ∈ keys (book s st)) by (apply (find_keys (comp_of s)); eauto).
      destruct (book s st) as [|[k v] m] eqn:Hbk; [by apply elem_of_nil in Hin|].
      simpl. f_equal.
      destruct (sorted_head_first (comp_of s) k v m price Hs Hin) as [->|Hlt].
      * destruct s; simpl; lia.
      * destruct s; unfold comp_of, DescPrice, AscePrice in Hlt; simpl; lia.
    + rewrite head_keys_emplace. f_equal.
      destruct (head (keys (book s st))) as [k|]; [|done].
      destruct s; unfold comp_of, DescPrice, AscePrice; simpl.
      * destruct (price >? k) eqn:E; lia.
      * destruct (price <? k) eqn:E; lia.
  - intros s' Hne. rewrite !top_price_book, Hb, decide_False by done. done.
Qed.

(** ** Orders, levels and counts *)

(** X7.  In a reachable state, [orders_on_side] is what walking
    [price_levels] in order and reading [orders_at] at each price gives (the
    walk of [print_side] in main.cpp): price priority first, then the order
    within each level. *)
Theorem orders_on_side_by_level s st :
  reachable st →
  orders_on_side s st =
    concat (map (λ p, orders_at s p st) (price_levels s st)).
Proof.
  intros Hwf%reachable_wf. rewrite orders_on_side_book, price_levels_keys.
  unfold keys. f_equal. rewrite <- list_fmap_compose.
  apply list_fmap_ext. intros i [k pl] Hin. simpl.
  apply list_elem_of_lookup_2 in Hin.
  by rewrite orders_at_level, (entry_level _ _ _ _ Hwf Hin).
Qed.

Lemma num_orders_on_side_length s st :
  num_orders_on_side s st = length (orders_on_side s st).
Proof.
  rewrite orders_on_side_book.
  assert (H : ∀ (m : list (Z * PriceLevel.t)) n,
    foldl (λ cnt kv, (cnt + PriceLevel.order_count kv.2)%nat) n m =
    (n + length (concat (map (λ kv, PriceLevel.orders kv.2) m)))%nat).
  { induction m as [|[k pl] m IH]; intros n; simpl; [lia|].
    rewrite IH, length_app. unfold PriceLevel.order_count. simpl. lia. }
  unfold num_orders_on_side. destruct s; simpl; by rewrite H.
Qed.

Lemma num_orders_at_length s p st : num_orders_at s p st = length (orders_at s p st).
Proof.
  unfold num_orders_at, orders_at. destruct s; by destruct (find _ _ _).
Qed.


(** Every order of a side belongs to an active id, and the other way round. *)
Lemma ids_of_book st :
  wf st →
  let l := orders_on_side Bid st ++ orders_on_side Ask st in
  NoDup l ∧
  NoDup (ids_of st l) ∧
  length (ids_of st l) = length l ∧
  (∀ id, id ∈ ids_of st l ↔ active id st).
Proof.
  intros Hwf l.
  assert (Hmem : ∀ q, q ∈ l ↔ ∃ s k pl, level s k st = Some pl ∧ q ∈ PriceLevel.orders pl).
  { intros q. subst l. rewrite elem_of_app, !elem_of_orders_on_side by done. split.
    - intros [(k & pl & ?)|(k & pl & ?)]; eauto.
    - intros ([] & k & pl & ?); eauto. }
  assert (Hlive : ∀ q, q ∈ l → ∃ s k o, deref st q = Some o ∧
            orders_by_id st !! Order.id o = Some (OrderLookup.mk s k q)).
  { intros q (s & k & pl & Hl & Hq)%Hmem.
    destruct (wf_level _ Hwf _ _ _ _ Hl Hq) as (o & Ho & Hi). by exists s, k, o. }
  assert (Hnd : NoDup l).
  { subst l. apply NoDup_app. split_and!; try by apply NoDup_orders_on_side.
    intros q (k & pl & Hl & Hq)%elem_of_orders_on_side
             (k' & pl' & Hl' & Hq')%elem_of_orders_on_side; try done.
    destruct (wf_level _ Hwf _ _ _ _ Hl Hq) as (o & Ho & Hi).
    destruct (wf_level _ Hwf _ _ _ _ Hl' Hq') as (o' & Ho' & Hi').
    rewrite Ho in Ho'. injection Ho' as <-. rewrite Hi in Hi'. by injection Hi'. }
  split_and!.
  - done.
  - apply NoDup_ids_of; [done|].
    intros x y ox oy (sx & kx & ox' & Hox & Hix)%Hlive
                     (sy & ky & oy' & Hoy & Hiy)%Hlive Hx Hy Hxy.
    rewrite Hox in Hx. injection Hx as <-. rewrite Hoy in Hy. injection Hy as <-.
    rewrite Hxy, Hiy in Hix. by injection Hix.
  - unfold ids_of. clear Hmem Hnd. induction l as [|q l IH]; [done|]. simpl.
    destruct (Hlive q) as (s & k & o & Ho & _); [left|]. rewrite Ho. simpl.
    f_equal. apply IH. intros q' Hq'. apply Hlive. by right.
  - intros id. unfold ids_of. rewrite list_elem_of_omap. split.
    + intros (q & (s & k & o & Ho & Hi)%Hlive & Hid). rewrite Ho in Hid.
      injection Hid as <-. by eexists.
    + intros [info Hi].
      destruct (wf_index _ Hwf _ _ Hi) as (o & pl & Ho & Hid & _ & _ & Hl & Hin).
      exists (OrderLookup.list_it info). split; [|by rewrite Ho; simpl; rewrite Hid].
      apply Hmem. eauto.
Qed.

(** X9.  In a reachable state, the orders of the two sides together are the
    active orders, each once: [num_orders_on_side] of the bids plus that of
    the asks is the number of active ids, and a side has at least as many
    orders as it has price levels. *)
Theorem order_counts st :
  reachable st →
  (num_orders_on_side Bid st + num_orders_on_side Ask st)%nat =
    size (orders_by_id st) ∧
  (∀ s, num_price_levels s st ≤ num_orders_on_side s st)%nat.
Proof.
  intros Hwf%reachable_wf. split.
  - destruct (ids_of_book st Hwf) as (_ & Hnd & Hlen & Hmem).
    rewrite !num_orders_on_side_length, <- length_app, <- Hlen.
    rewrite <- (size_list_to_set (C := gset string)) by done.
    rewrite <- size_dom. f_equal. apply set_eq. intros id.
    rewrite elem_of_list_to_set, Hmem, elem_of_dom. done.
  - intros s. rewrite num_orders_on_side_length, num_price_levels_length,
      orders_on_side_book.
    assert (Hne : ∀ k pl, (k, pl) ∈ book s st → PriceLevel.orders pl ≠ []).
    { intros k pl Hin. eapply (wf_nonempty _ Hwf), entry_level; done. }
    induction (book s st) as [|[k pl] m IH]; simpl; [lia|].
    rewrite length_app.
    assert (0 < length (PriceLevel.orders pl))%nat.
    { destruct (PriceLevel.orders pl) eqn:E; simpl; [|lia].
      exfalso. eapply (Hne k pl); [left|done]. }
    assert (length m ≤ length (concat (map (λ kv, PriceLevel.orders kv.2) m)))%nat.
    { apply IH. intros k' pl' Hin. apply (Hne k'). by right. }
    lia.
Qed.

(** X10.  In a reachable state, an active id shows up exactly once among the
    orders of the two sides together (so never on both sides), and an id
    that is not active shows up on neither. *)
Theorem id_on_one_side id st :
  reachable st →
  occurrences id (ids_of st (orders_on_side Bid st ++ orders_on_side Ask st)) =
    if bool_decide (active id st) then 1%nat else 0%nat.
Proof.
  intros Hwf%reachable_wf.
  destruct (ids_of_book st Hwf) as (_ & Hnd & _ & Hmem).
  case_bool_decide as Ha.
  - apply occurrences_NoDup; [done|]. by apply Hmem.
  - apply occurrences_notin. by rewrite Hmem.
Qed.


(** ** What a successful amend leaves in the order, and amending twice *)


(** The object of the amended order after a successful amend. *)
Lemma amend_order_object id np nq t st info o :
  wf st → orders_by_id st !! id = Some info →
  deref st (OrderLookup.list_it info) = Some o →
  (amend_order id np nq t st).1 = true →
  deref (amend_order id np nq t st).2 (OrderLookup.list_it info) =
    Some (Order.mk (Order.id o) (Order.side o)
            (default (Order.price o) np) (default (Order.quantity o) nq)
            (Order.creation_time o)
            (if bool_decide (default (Order.price o) np = Order.price o ∧
                             (default (Order.quantity o) nq < Order.quantity o)%N)
             then Order.last_update_time o else t)
            (Transaction.mk Amend t)).
Proof.
  intros Hwf Hi Ho Htrue.
  destruct (wf_index _ Hwf _ _ Hi) as (o' & pl & Ho' & Hid & Hside & Hprice & Hl & Hin).
  rewrite Ho in Ho'. injection Ho' as <-.
  assert (Hself : ∀ x st', deref (set_heap (<[OrderLookup.list_it info := x]> (heap st)) st')
                             (OrderLookup.list_it info) = Some x).
  { intros x st'. unfold deref. simpl. apply list_lookup_insert_eq. by eapply deref_lt. }
  assert (Hp : (∃ x, np = Some x ∧ x ≠ OrderLookup.price info) ∨
               (np = None ∨ np = Some (OrderLookup.price info))).
  { destruct np as [x|]; [|by right; left].
    destruct (decide (x = OrderLookup.price info)) as [->|]; [by right; right|].
    left. by exists x. }
  destruct Hp as [(x & -> & Hx)|Hp].
  { rewrite (amend_order_price _ _ _ _ _ _ _ Hi Ho Hx). unfold deref. simpl.
    rewrite heap_set_book. simpl.
    rewrite list_lookup_insert_eq by by eapply deref_lt.
    rewrite bool_decide_false; [done|]. intros [? _]. congruence. }
  assert (Hpo : default (Order.price o) np = Order.price o).
  { destruct Hp as [->| ->]; simpl; congruence. }
  rewrite Hpo.
  destruct nq as [n|].
  2: { by rewrite (amend_order_same _ _ _ _ _ _ _ Hi Ho Hp) in Htrue; auto. }
  destruct (N.lt_trichotomy n (Order.quantity o)) as [Hlt|[->|Hgt]].
  - rewrite (amend_order_decrease _ _ _ _ _ _ _ Hi Ho Hp Hlt). simpl.
    rewrite Hself. by rewrite bool_decide_true.
  - by rewrite (amend_order_same _ _ _ _ _ _ _ Hi Ho Hp) in Htrue; auto.
  - rewrite (amend_order_increase _ _ _ _ _ _ _ _ Hi Ho Hl Hp Hgt). unfold deref. simpl.
    rewrite heap_set_book. simpl.
    rewrite list_lookup_insert_eq by by eapply deref_lt.
    rewrite bool_decide_false; [done|]. intros [_ ?]. lia.
Qed.



(** ** The orders a call is not about *)

Lemma index_step_other op st id' :
  wf st → id' ≠ op_id op →
  orders_by_id (step op st).2 !! id' = orders_by_id st !! id'.
Proof.
  intros Hwf Hne. destruct op as [id s price qty t|id t|id np nq t]; simpl in *.
  - destruct (orders_by_id st !! id) as [info|] eqn:Hi.
    + rewrite add_order_fail; [done|]. by eexists.
    + rewrite add_order_ok by done. simpl. by rewrite lookup_insert_ne.
  - destruct (orders_by_id st !! id) as [info|] eqn:Hi.
    + destruct (wf_index _ Hwf _ _ Hi) as (o & pl & _ & _ & _ & _ & Hl & _).
      rewrite (remove_order_ok _ _ _ _ _ Hi Hl). simpl. by rewrite lookup_delete_ne.
    + by rewrite remove_order_fail.
  - destruct (orders_by_id st !! id) as [info|] eqn:Hi.
    2: { by rewrite amend_order_unknown. }
    destruct (wf_index _ Hwf _ _ Hi) as (o & pl & Ho & Hid & Hside & Hprice & Hl & Hin).
    assert (Hp : (∃ x, np = Some x ∧ x ≠ OrderLookup.price info) ∨
                 (np = None ∨ np = Some (OrderLookup.price info))).
    { destruct np as [x|]; [|by right; left].
      destruct (decide (x = OrderLookup.price info)) as [->|]; [by right; right|].
      left. by exists x. }
    destruct Hp as [(x & -> & Hx)|Hp].
    { rewrite (amend_order_price _ _ _ _ _ _ _ Hi Ho Hx). simpl.
      by rewrite lookup_insert_ne. }
    destruct nq as [n|]; [|by rewrite (amend_order_same _ _ _ _ _ _ _ Hi Ho Hp); auto].
    destruct (N.lt_trichotomy n (Order.quantity o)) as [Hlt|[->|Hgt]].
    + by rewrite (amend_order_decrease _ _ _ _ _ _ _ Hi Ho Hp Hlt).
    + by rewrite (amend_order_same _ _ _ _ _ _ _ Hi Ho Hp); auto.
    + rewrite (amend_order_increase _ _ _ _ _ _ _ _ Hi Ho Hl Hp Hgt). simpl.
      by rewrite lookup_insert_ne.
Qed.

(** X14.  In a reachable state, a call about one id, whatever it returns,
    leaves every other id as it was: active or not, with the same order
    object, the same fields and the same last transaction. *)
Theorem step_keeps_other_orders op id' st :
  reachable st → id' ≠ op_id op →
  let st' := (step op st).2 in
  (active id' st' ↔ active id' st) ∧
  get_order id' st' = get_order id' st ∧
  get_order id' st' ≫= deref st' = get_order id' st ≫= deref st ∧
  last_transaction id' st' = last_transaction id' st.
Proof.
  intros Hreach Hne st'. pose proof (reachable_wf _ Hreach) as Hwf.
  pose proof (index_step_other op st id' Hwf Hne) as Hix. fold st' in Hix.
  assert (Hg : get_order id' st' = get_order id' st)
    by (unfold get_order; by rewrite Hix).
  assert (Hd : get_order id' st' ≫= deref st' = get_order id' st ≫= deref st).
  { rewrite Hg. destruct (get_order id' st) as [p|] eqn:Hp; simpl; [|done].
    assert (Hsome : is_Some (deref st p)).
    { apply (returned_deref _ _ Hwf). by apply (ret_get_order _ _ id'). }
    subst st'. destruct op as [id s price qty t|id t|id np nq t]; simpl in *.
    - by apply deref_add_order.
    - apply deref_remove_order.
    - apply deref_amend_order; [done|]. intros Hp'.
      apply get_order_Some in Hp as (i1 & H1 & E1).
      apply get_order_Some in Hp' as (i2 & H2 & E2).
      apply Hne. eapply wf_ptr_inj; [done..|]. congruence. }
  split_and!; try done.
  - unfold active. by rewrite Hix.
  - unfold last_transaction. rewrite Hg in Hd |- *.
    destruct (get_order id' st) as [p|] eqn:Hp; simpl in *; [|done].
    unfold deref in Hd. by rewrite Hd.
Qed.

(** ** The order objects along a run *)

(** What a call does to an order object: nothing, or it makes it
    ([add_order]), or it amends it. *)
Lemma object_after_step op st p o' :
  wf st → deref (step op st).2 p = Some o' →
  deref st p = Some o' ∨
  (deref st p = None ∧
   ∃ id s price qty, o' = Order.make id s price qty (op_time op)) ∨
  (∃ o, deref st p = Some o ∧ same_identity o o' ∧
        Order.last_txn o' = Transaction.mk Amend (op_time op) ∧
        (Order.last_update_time o' = Order.last_update_time o ∨
         Order.last_update_time o' = op_time op)).
Proof.
  intros Hwf Hd. destruct op as [id s price qty t|id t|id np nq t]; simpl in *.
  - destruct (orders_by_id st !! id) as [info|] eqn:Hi.
    + rewrite add_order_fail in Hd by by eexists. by left.
    + rewrite add_order_ok in Hd by done. unfold deref in *. simpl in Hd.
      apply lookup_app_Some in Hd as [Hd|[Hge Hd]]; [by left|].
      right. left. split; [by apply lookup_ge_None|].
      apply list_lookup_singleton_Some in Hd as [_ <-]. by exists id, s, price, qty.
  - rewrite deref_remove_order in Hd. by left.
  - destruct (decide (get_order id st = Some p)) as [Hg|Hg].
    2: { rewrite deref_amend_order in Hd by done. by left. }
    apply get_order_Some in Hg as (info & Hi & <-).
    destruct (wf_index _ Hwf _ _ Hi) as (o & pl & Ho & _).
    destruct ((amend_order id np nq t st).1) eqn:Hr.
    + right. right. exists o. split; [done|].
      rewrite (amend_order_object id np nq t st info o Hwf Hi Ho Hr) in Hd.
      injection Hd as <-. simpl. split_and!; try done.
      case_bool_decide; auto.
    + rewrite amend_order_false in Hd by done. by left.
Qed.

(** A call never drops an order object, nor changes its id, its side or its
    creation time. *)
Lemma object_kept_by_step op st p o :
  wf st → deref st p = Some o →
  ∃ o', deref (step op st).2 p = Some o' ∧ same_identity o o'.
Proof.
  intros Hwf Ho. destruct op as [id s price qty t|id t|id np nq t]; simpl.
  - exists o. rewrite deref_add_order by by eexists. done.
  - exists o. by rewrite deref_remove_order.
  - destruct (decide (get_order id st = Some p)) as [Hg|Hg].
    2: { exists o. by rewrite deref_amend_order. }
    apply get_order_Some in Hg as (info & Hi & <-).
    destruct ((amend_order id np nq t st).1) eqn:Hr.
    + rewrite (amend_order_object id np nq t st info o Hwf Hi Ho Hr).
      eexists. split; [done|]. by split_and!.
    + exists o. by rewrite amend_order_false.
Qed.

(** X15.  From a reachable state on, through any further calls, an order
    object (held by the book, or by a caller once its order is removed)
    keeps its id, its side and its creation time, whatever is amended or
    removed: no call writes those three fields. *)
Theorem order_identity_kept ops st p o :
  reachable st → deref st p = Some o →
  ∃ o', deref (run ops st) p = Some o' ∧ same_identity o o'.
Proof.
  revert st o. induction ops as [|op ops IH]; intros st o Hreach Ho; simpl.
  - exists o. by split_and!.
  - destruct (object_kept_by_step op st p o (reachable_wf _ Hreach) Ho)
      as (o1 & Ho1 & H1 & H2 & H3).
    destruct (IH (step op st).2 o1 (reachable_step op st Hreach) Ho1)
      as (o' & Ho' & H1' & H2' & H3').
    exists o'. split; [done|]. split_and!; congruence.
Qed.

Lemma no_remove_transaction st p o :
  reachable st → deref st p = Some o →
  Transaction.type (Order.last_txn o) ≠ Remove.
Proof.
  intros Hreach. revert p o. induction Hreach as [|op st Hreach IH]; intros p o Ho.
  - done.
  - destruct (object_after_step op st p o (reachable_wf _ Hreach) Ho)
      as [Hsame|[(_ & id & s & price & qty & ->)|(o0 & _ & _ & -> & _)]]; try done.
    by eapply IH.
Qed.

(** X16.  In a reachable state, [last_transaction] is empty exactly for the
    ids that are not active, and what it returns for an active id is an Add
    or an Amend, never a Remove. *)
Theorem last_transaction_kind id st :
  reachable st →
  (last_transaction id st = None ↔ ¬ active id st) ∧
  (∀ x, last_transaction id st = Some x →
        Transaction.type x = Add ∨ Transaction.type x = Amend).
Proof.
  intros Hreach. pose proof (reachable_wf _ Hreach) as Hwf.
  unfold last_transaction, get_order, active.
  destruct (orders_by_id st !! id) as [info|] eqn:Hi.
  - destruct (wf_index _ Hwf _ _ Hi) as (o & _ & Ho & _).
    unfold deref in Ho. rewrite Ho. simpl. split.
    + split; [done|]. intros H. exfalso. apply H. by eexists.
    + intros x [= <-]. pose proof (no_remove_transaction st _ o Hreach Ho).
      destruct (Transaction.type (Order.last_txn o)); auto. done.
  - split; [|done]. split; [|done]. by intros _ [? ?].
Qed.

Lemma times_ordered_wait now t o : times_ordered now o → now ≤ t → times_ordered t o.
Proof. unfold times_ordered. lia. Qed.

Lemma times_ordered_run ops st now :
  wf st →
  (∀ p o, deref st p = Some o → times_ordered now o) →
  monotone now ops →
  ∃ t, ∀ p o, deref (run ops st) p = Some o → times_ordered t o.
Proof.
  revert st now. induction ops as [|op ops IH]; intros st now Hwf Hinv Hm; simpl.
  - by exists now.
  - destruct Hm as [Hle Hm]. apply (IH _ (op_time op)); [by apply wf_step| |done].
    intros p o Ho.
    destruct (object_after_step op st p o Hwf Ho)
      as [Hsame|[(_ & id & s & price & qty & ->)|(o0 & Ho0 & (_ & _ & Hc) & Ht & Hu)]].
    + eapply times_ordered_wait; eauto.
    + unfold times_ordered. simpl. lia.
    + specialize (Hinv _ _ Ho0). unfold times_ordered in *. rewrite Ht, Hc. simpl.
      destruct Hu as [-> | ->]; lia.
Qed.

(** X17.  When the timestamps of the calls never go back, every order object
    of the run has its creation time at or before its last update time, and
    its last update time at or before the time of its last transaction. *)
Theorem order_times_in_order now ops p o :
  monotone now ops →
  deref (run ops empty_book) p = Some o →
  Order.creation_time o ≤ Order.last_update_time o ∧
  Order.last_update_time o ≤ Transaction.time (Order.last_txn o).
Proof.
  intros Hm Ho.
  destruct (times_ordered_run ops empty_book now wf_empty) as [t Ht]; [|done|].
  - intros p' o' H. unfold deref in H. simpl in H. by rewrite lookup_nil in H.
  - destruct (Ht _ _ Ho) as (? & ? & _). done.
Qed.

(** ** The scans by time *)

Lemma elem_of_scan_iff keep p st :
  p ∈ scan keep st ↔
  ∃ id o, get_order id st = Some p ∧ deref st p = Some o ∧ keep o = true.
Proof.
  split.
  - unfold scan. intros ([id info] & Hin%elem_of_map_to_list & H)%list_elem_of_omap.
    simpl in H. fold (deref st (OrderLookup.list_it info)) in H.
    destruct (deref st (OrderLookup.list_it info)) as [o|] eqn:Ho; [|done].
    destruct (keep o) eqn:Hk; [|done]. injection H as <-.
    exists id, o. split_and!; try done. unfold get_order. by rewrite Hin.
  - intros (id & o & (info & Hi & <-)%get_order_Some & Ho & Hk).
    unfold scan. apply list_elem_of_omap. exists (id, info). split.
    + by apply elem_of_map_to_list.
    + simpl. fold (deref st (OrderLookup.list_it info)). by rewrite Ho, Hk.
Qed.

Lemma NoDup_omap_inj {A B} (f : A → option B) (l : list A) :
  NoDup l →
  (∀ x y z, x ∈ l → y ∈ l → f x = Some z → f y = Some z → x = y) →
  NoDup (omap f l).
Proof.
  induction 1 as [|x l Hx Hl IH]; simpl; intros Hinj; [constructor|].
  assert (IH' : NoDup (omap f l)).
  { apply IH. intros a b z Ha Hb. apply Hinj; by right. }
  destruct (f x) as [z|] eqn:Hz; [|done].
  constructor; [|done]. intros (y & Hy & Hfy)%list_elem_of_omap.
  apply Hx. rewrite (Hinj x y z); [done|left|by right|done|done].
Qed.

Lemma NoDup_scan keep st : wf st → NoDup (scan keep st).
Proof.
  intros Hwf. unfold scan. apply NoDup_omap_inj; [apply NoDup_map_to_list|].
  intros [id1 i1] [id2 i2] z H1%elem_of_map_to_list H2%elem_of_map_to_list Hz1 Hz2.
  simpl in *.
  assert (E : OrderLookup.list_it i1 = OrderLookup.list_it i2).
  { destruct (heap st !! OrderLookup.list_it i1) as [o1|]; [|done].
    destruct (heap st !! OrderLookup.list_it i2) as [o2|]; [|done].
    destruct (keep o1); [|done]. destruct (keep o2); [|done]. congruence. }
  assert (id1 = id2) as <- by by eapply wf_ptr_inj.
  rewrite H1 in H2. by injection H2 as <-.
Qed.

(** X18.  In a reachable state, [orders_created_before] returns the orders of
    the active ids created strictly before [t], [orders_created_after] those
    created strictly after [t]; an order created at [t] is in neither, no
    order is in both, and neither lists an order twice. *)
Theorem created_scans t st :
  reachable st →
  (∀ p, p ∈ orders_created_before t st ↔
        ∃ id o, get_order id st = Some p ∧ deref st p = Some o ∧
                Order.creation_time o < t) ∧
  (∀ p, p ∈ orders_created_after t st ↔
        ∃ id o, get_order id st = Some p ∧ deref st p = Some o ∧
                t < Order.creation_time o) ∧
  (∀ p, p ∈ orders_created_before t st → p ∉ orders_created_after t st) ∧
  NoDup (orders_created_before t st) ∧
  NoDup (orders_created_after t st).
Proof.
  intros Hwf%reachable_wf.
  assert (Hb : ∀ p, p ∈ orders_created_before t st ↔
        ∃ id o, get_order id st = Some p ∧ deref st p = Some o ∧
                Order.creation_time o < t).
  { intros p. unfold orders_created_before. rewrite elem_of_scan_iff.
    by setoid_rewrite Z.ltb_lt. }
  assert (Ha : ∀ p, p ∈ orders_created_after t st ↔
        ∃ id o, get_order id st = Some p ∧ deref st p = Some o ∧
                t < Order.creation_time o).
  { intros p. unfold orders_created_after. rewrite elem_of_scan_iff.
    setoid_rewrite Z.gtb_gt. by setoid_rewrite Z.gt_lt_iff. }
  split_and!; try done; try by apply NoDup_scan.
  intros p (id & o & _ & Ho & Hlt)%Hb (id' & o' & _ & Ho' & Hgt)%Ha.
  rewrite Ho in Ho'. injection Ho' as <-. lia.
Qed.

(** X19.  In a reachable state, [orders_updated_before] returns the orders of
    the active ids last updated strictly before [t], [orders_updated_after]
    those last updated strictly after [t]; an order last updated at [t] is in
    neither, no order is in both, and neither lists an order twice. *)
Theorem updated_scans t st :
  reachable st →
  (∀ p, p ∈ orders_updated_before t st ↔
        ∃ id o, get_order id st = Some p ∧ deref st p = Some o ∧
                Order.last_update_time o < t) ∧
  (∀ p, p ∈ orders_updated_after t st ↔
        ∃ id o, get_order id st = Some p ∧ deref st p = Some o ∧
                t < Order.last_update_time o) ∧
  (∀ p, p ∈ orders_updated_before t st → p ∉ orders_updated_after t st) ∧
  NoDup (orders_updated_before t st) ∧
  NoDup (orders_updated_after t st).
Proof.
  intros Hwf%reachable_wf.
  assert (Hb : ∀ p, p ∈ orders_updated_before t st ↔
        ∃ id o, get_order id st = Some p ∧ deref st p = Some o ∧
                Order.last_update_time o < t).
  { intros p. unfold orders_updated_before. rewrite elem_of_scan_iff.
    by setoid_rewrite Z.ltb_lt. }
  assert (Ha : ∀ p, p ∈ orders_updated_after t st ↔
        ∃ id o, get_order id st = Some p ∧ deref st p = Some o ∧
                t < Order.last_update_time o).
  { intros p. unfold orders_updated_after. rewrite elem_of_scan_iff.
    setoid_rewrite Z.gtb_gt. by setoid_rewrite Z.gt_lt_iff. }
  split_and!; try done; try by apply NoDup_scan.
  intros p (id & o & _ & Ho & Hlt)%Hb (id' & o' & _ & Ho' & Hgt)%Ha.
  rewrite Ho in Ho'. injection Ho' as <-. lia.
Qed.

(** ** The total quantity of a level *)

Lemma total_quantity_fold st (l : list ptr) (a : N) :
  (a < 2 ^ 64)%N →
  foldl (λ s p, match deref st p with
                | Some o => ((s + Order.quantity o) mod 2 ^ 64)%N
                | None => s
                end) a l =
  ((a + quantity_sum st l) mod 2 ^ 64)%N.
Proof.
  revert a. induction l as [|p l IH]; intros a Ha; simpl.
  - rewrite N.add_0_r. symmetry. by apply N.mod_small.
  - destruct (deref st p) as [o|]; simpl.
    + rewrite IH by (apply N.mod_upper_bound; lia).
      rewrite N.Div0.add_mod_idemp_l. f_equal. lia.
    + by rewrite IH.
Qed.

Lemma total_quantity_mod st pl :
  total_quantity st pl = (quantity_sum st (PriceLevel.orders pl) mod 2 ^ 64)%N.
Proof. unfold total_quantity. by rewrite total_quantity_fold. Qed.

(** X20.  [total_quantity] of a level is the sum of the quantities of its
    orders reduced modulo 2^64: it is the exact sum whenever that sum fits 64
    bits, and it wraps around otherwise. *)
Theorem total_quantity_wraps st pl :
  total_quantity st pl = (quantity_sum st (PriceLevel.orders pl) mod 2 ^ 64)%N ∧
  ((quantity_sum st (PriceLevel.orders pl) < 2 ^ 64)%N →
   total_quantity st pl = quantity_sum st (PriceLevel.orders pl)).
Proof.
  split; [apply total_quantity_mod|].
  intros Hlt. rewrite total_quantity_mod. by apply N.mod_small.
Qed.

Lemma quantity_sum_ext st st' (l : list ptr) :
  (∀ p, p ∈ l → deref st' p = deref st p) →
  quantity_sum st' l = quantity_sum st l.
Proof.
  induction l as [|p l IH]; intros H; simpl; [done|].
  rewrite H by left. rewrite IH; [done|]. intros q Hq. apply H. by right.
Qed.

Lemma quantity_sum_app st (l1 l2 : list ptr) :
  quantity_sum st (l1 ++ l2) = (quantity_sum st l1 + quantity_sum st l2)%N.
Proof. induction l1 as [|p l IH]; simpl; [done|]. rewrite IH. lia. Qed.

(** X21.  In a reachable state, after [add_order] of an id that is not
    active, the total quantity of the level of the new order is the total
    quantity that level had (zero when there was no such level) plus the
    quantity of the new order, modulo 2^64. *)
Theorem total_quantity_after_add id s price qty t st :
  reachable st → ¬ active id st →
  let r := add_order id s price qty t st in
  ∃ pl', level s price r.2 = Some pl' ∧
         total_quantity r.2 pl' =
           ((from_option (total_quantity st) 0 (level s price st) + qty)
              mod 2 ^ 64)%N.
Proof.
  intros Hwf%reachable_wf Hna r.
  assert (Hi : orders_by_id st !! id = None).
  { destruct (orders_by_id st !! id) eqn:E; [|done]. exfalso. apply Hna. by eexists. }
  eexists. split.
  { subst r. by rewrite level_add_order, decide_True. }
  rewrite total_quantity_mod. simpl.
  rewrite quantity_sum_app. simpl.
  assert (Hnew : deref r.2 (length (heap st)) = Some (Order.make id s price qty t)).
  { subst r. rewrite add_order_ok by done. unfold deref. simpl.
    by rewrite lookup_app_r, Nat.sub_diag by lia. }
  rewrite Hnew. simpl. rewrite N.add_0_r.
  destruct (level s price st) as [pl|] eqn:Hl; simpl.
  - rewrite (total_quantity_mod st pl).
    rewrite N.Div0.add_mod_idemp_l. f_equal. f_equal.
    apply quantity_sum_ext. intros p Hp. subst r. apply deref_add_order.
    destruct (wf_level _ Hwf _ _ _ _ Hl Hp) as (o & Ho & _). by eexists.
  - done.
Qed.

(** ** Counts after [add_order] and [remove_order] *)

Section Counting.
Variable comp : Z → Z → bool.
Implicit Types (m : list (Z * PriceLevel.t)) (k : Z).

Lemma length_update k f m : length (update comp k f m) = length m.
Proof.
  induction m as [|[k' v'] m IH]; simpl; [done|].
  destruct (equiv comp k k'); simpl; [done|]. by rewrite IH.
Qed.


Lemma length_erase k v m :
  find comp k m = Some v → S (length (erase comp k m)) = length m.
Proof.
  induction m as [|[k' v'] m IH]; simpl; [done|].
  destruct (equiv comp k k'); simpl; [done|]. intros Hf. by rewrite IH.
Qed.

Lemma orders_in_update k f m v :
  find comp k m = Some v →
  (length (orders_in (update comp k f m)) + length (PriceLevel.orders v) =
   length (orders_in m) + length (PriceLevel.orders (f v)))%nat.
Proof.
  unfold orders_in. induction m as [|[k' v'] m IH]; simpl; [done|].
  destruct (equiv comp k k'); simpl.
  - intros [= ->]. rewrite !length_app. lia.
  - intros Hf. rewrite !length_app. specialize (IH Hf). lia.
Qed.


Lemma orders_in_erase k v m :
  find comp k m = Some v →
  (length (orders_in (erase comp k m)) + length (PriceLevel.orders v) =
   length (orders_in m))%nat.
Proof.
  unfold orders_in. induction m as [|[k' v'] m IH]; simpl; [done|].
  destruct (equiv comp k k'); simpl.
  - intros [= ->]. rewrite length_app. lia.
  - intros Hf. rewrite !length_app. specialize (IH Hf). lia.
Qed.
End Counting.

Lemma num_orders_on_side_in s st :
  num_orders_on_side s st = length (orders_in (book s st)).
Proof. rewrite num_orders_on_side_length. by rewrite orders_on_side_book. Qed.


Lemma length_filter_remove (p : ptr) (l : list ptr) :
  NoDup l → p ∈ l → S (length (filter (λ x, x ≠ p) l)) = length l.
Proof.
  induction 1 as [|x l Hx Hl IH]; intros Hin; [by apply elem_of_nil in Hin|].
  apply elem_of_cons in Hin as [<-|Hin].
  - rewrite filter_cons_False by (by intros ?). simpl. f_equal.
    clear IH Hl. induction l as [|y l IH]; [done|].
    apply not_elem_of_cons in Hx as [Hne Hx].
    rewrite filter_cons_True by done. simpl. by rewrite IH.
  - rewrite filter_cons_True by (intros ->; done). simpl. by rewrite IH.
Qed.

(** X23.  In a reachable state, after [remove_order] of an active order, the
    order's level and the order's side each hold one order less, the side has
    one price level less exactly when the order was alone in its level, and
    the counts of the other side are as before. *)
Theorem counts_after_remove id p o t st :
  reachable st →
  get_order id st = Some p → deref st p = Some o →
  let r := remove_order id t st in
  let s := Order.side o in
  S (num_orders_at s (Order.price o) r.2) = num_orders_at s (Order.price o) st ∧
  S (num_orders_on_side s r.2) = num_orders_on_side s st ∧
  (num_price_levels s r.2 +
   if bool_decide (orders_at s (Order.price o) st = [p]) then 1 else 0)%nat =
    num_price_levels s st ∧
  (∀ s', s' ≠ s →
     num_orders_on_side s' r.2 = num_orders_on_side s' st ∧
     num_price_levels s' r.2 = num_price_levels s' st).
Proof.
  intros Hwf%reachable_wf Hg Ho r s.
  destruct (active_order _ _ _ _ Hwf Hg Ho) as (info & pl & Hi & Hinfo & Hid & Hl & Hin).
  assert (Hl' : level (OrderLookup.side info) (OrderLookup.price info) st = Some pl)
    by by rewrite Hinfo.
  pose proof (wf_nodup _ Hwf _ _ _ Hl) as Hnd.
  pose proof (length_filter_remove p _ Hnd Hin) as Hlen.
  assert (Hb : ∀ s', book s' r.2 =
            if decide (s = s') then unlink (comp_of s) (Order.price o) p (book s st)
            else book s' st).
  { intros s'. subst r. rewrite (remove_order_ok _ _ _ _ _ Hi Hl'). simpl.
    rewrite book_set_orders_by_id, book_set_book. by rewrite Hinfo. }
  fold s in Hl. unfold level in Hl.
  assert (Hu : find (comp_of s) (Order.price o)
                 (update (comp_of s) (Order.price o) (PriceLevel.erase p) (book s st)) =
               Some (PriceLevel.erase p pl)).
  { by rewrite (find_update (comp_of s)), decide_True, Hl. }
  pose proof (orders_in_update (comp_of s) (Order.price o) (PriceLevel.erase p) _ pl Hl)
    as Hcnt. simpl in Hcnt.
  assert (Halone : orders_at s (Order.price o) st = [p] ↔
                   filter (λ x, x ≠ p) (PriceLevel.orders pl) = []).
  { rewrite orders_at_level. unfold level. rewrite Hl. simpl. split.
    - intros ->. by rewrite filter_cons_False, filter_nil by (by intros ?).
    - intros He. rewrite He in Hlen. simpl in Hlen.
      destruct (PriceLevel.orders pl) as [|x [|y l]]; simpl in Hlen; try lia.
      apply list_elem_of_singleton in Hin. by subst x. }
  split_and!.
  - rewrite !num_orders_at_length, !orders_at_level.
    unfold level at 1. rewrite Hb, decide_True by done.
    rewrite (find_unlink s) by apply (wf_sorted _ Hwf).
    rewrite decide_True by done. unfold level. rewrite Hl. simpl.
    rewrite orders_at_shrink. lia.
  - rewrite !num_orders_on_side_in, Hb, decide_True by done. unfold unlink.
    rewrite Hu. simpl. case_bool_decide as He.
    + pose proof (orders_in_erase (comp_of s) (Order.price o) _ _ Hu) as H.
      simpl in H. pose proof (f_equal length He) as He0. simpl in He0. lia.
    + lia.
  - rewrite !num_price_levels_length, Hb, decide_True by done. unfold unlink.
    rewrite Hu. simpl. case_bool_decide as He.
    + rewrite bool_decide_true by by apply Halone.
      pose proof (length_erase (comp_of s) (Order.price o) _ _ Hu) as H.
      rewrite length_update in H. lia.
    + rewrite bool_decide_false by (by rewrite Halone).
      rewrite length_update. lia.
  - intros s' Hne.
    rewrite !num_orders_on_side_in, !num_price_levels_length, Hb.
    by rewrite decide_False.
Qed.

(** ** A price changed and changed back *)




(** * The further properties on the first book of the demo *)

Lemma reachable_book_1 : reachable st_book_1.
Proof. apply (reachable_run book_1 empty_book reachable_empty). Defined.



Lemma add_then_remove_witness :
  (remove_order "6" 7 (add_order "6" Ask 50 150 6 st_book_1).2).1 = true
  ∧ bid_book (remove_order "6" 7 (add_order "6" Ask 50 150 6 st_book_1).2).2 =
    bid_book st_book_1
    ∧ ask_book (remove_order "6" 7 (add_order "6" Ask 50 150 6 st_book_1).2).2 =
      ask_book st_book_1
      ∧ orders_by_id (remove_order "6" 7 (add_order "6" Ask 50 150 6 st_book_1).2).2 =
        orders_by_id st_book_1
        ∧ ∀ (p : ptr) (o : Order.t),
            deref st_book_1 p = Some o
            → deref (remove_order "6" 7 (add_order "6" Ask 50 150 6 st_book_1).2).2 p =
              Some o.
Proof.
  apply (add_then_remove "6" Ask 50 150%N 6 7 st_book_1).
  - exact reachable_book_1.
  - intros [x Hx]; vm_compute in Hx; discriminate Hx.
Defined.

Lemma price_levels_in_priority_witness :
  StronglySorted (λ a b : Z, a > b) (price_levels Bid st_book_1)
  ∧ StronglySorted (λ a b : Z, a < b) (price_levels Ask st_book_1).
Proof.
  apply (price_levels_in_priority st_book_1).
  - exact reachable_book_1.
Defined.

Lemma top_and_bottom_price_witness :
  (top_price Bid st_book_1 = None ↔ num_price_levels Bid st_book_1 = 0%nat)
  ∧ (bottom_price Bid st_book_1 = None ↔ num_price_levels Bid st_book_1 = 0%nat)
    ∧ (∀ a : Z,
         top_price Bid st_book_1 = Some a
         → a ∈ price_levels Bid st_book_1
           ∧ ∀ p : Z, p ∈ price_levels Bid st_book_1 → at_least_as_good Bid a p)
      ∧ ∀ b : Z,
          bottom_price Bid st_book_1 = Some b
          → b ∈ price_levels Bid st_book_1
            ∧ ∀ p : Z, p ∈ price_levels Bid st_book_1 → at_least_as_good Bid p b.
Proof.
  apply (top_and_bottom_price Bid st_book_1).
  - exact reachable_book_1.
Defined.

Lemma top_price_after_add_witness :
  top_price Ask (add_order "6" Ask 50 150 6 st_book_1).2 =
  Some
    match top_price Ask st_book_1 with
    | Some a => better_of Ask a 50
    | None => 50
    end
  ∧ ∀ s' : Side,
      s' ≠ Ask
      → top_price s' (add_order "6" Ask 50 150 6 st_book_1).2 = top_price s' st_book_1.
Proof.
  apply (top_price_after_add "6" Ask 50 150%N 6 st_book_1).
  - exact reachable_book_1.
  - intros [x Hx]; vm_compute in Hx; discriminate Hx.
Defined.

Lemma orders_on_side_by_level_witness :
  orders_on_side Bid st_book_1 =
  concat (map (λ p : Z, orders_at Bid p st_book_1) (price_levels Bid st_book_1)).
Proof.
  apply (orders_on_side_by_level Bid st_book_1).
  - exact reachable_book_1.
Defined.


Lemma order_counts_witness :
  (num_orders_on_side Bid st_book_1 + num_orders_on_side Ask st_book_1)%nat =
  size (orders_by_id st_book_1)
  ∧ ∀ s : Side, (num_price_levels s st_book_1 <= num_orders_on_side s st_book_1)%nat.
Proof.
  apply (order_counts st_book_1).
  - exact reachable_book_1.
Defined.

Lemma id_on_one_side_witness :
  occurrences "1"
    (ids_of st_book_1 (orders_on_side Bid st_book_1 ++ orders_on_side Ask st_book_1)) =
  (if bool_decide (active "1" st_book_1) then 1%nat else 0%nat).
Proof.
  apply (id_on_one_side "1" st_book_1).
  - exact reachable_book_1.
Defined.




Lemma step_keeps_other_orders_witness :
  (active "2" (step (OpAmend "1" None (Some 500%N) 6) st_book_1).2
   ↔ active "2" st_book_1)
  ∧ get_order "2" (step (OpAmend "1" None (Some 500%N) 6) st_book_1).2 =
    get_order "2" st_book_1
    ∧ get_order "2" (step (OpAmend "1" None (Some 500%N) 6) st_book_1).2
      ≫= deref (step (OpAmend "1" None (Some 500%N) 6) st_book_1).2 =
      get_order "2" st_book_1 ≫= deref st_book_1
      ∧ last_transaction "2" (step (OpAmend "1" None (Some 500%N) 6) st_book_1).2 =
        last_transaction "2" st_book_1.
Proof.
  apply (step_keeps_other_orders (OpAmend "1" None (Some 500%N) 6) "2" st_book_1).
  - exact reachable_book_1.
  - simpl; intros H; discriminate H.
Defined.

Lemma order_identity_kept_witness :
  ∃ o' : Order.t,
    deref (run [OpAmend "1" (Some 52) None 6; OpRemove "1" 7] st_book_1) 0%nat =
    Some o' ∧ same_identity (Order.make "1" Bid 50 400 1) o'.
Proof.
  apply (order_identity_kept [OpAmend "1" (Some 52) None 6; OpRemove "1" 7] st_book_1 0%nat (Order.make "1" Bid 50 400%N 1)).
  - exact reachable_book_1.
  - reflexivity.
Defined.

Lemma last_transaction_kind_witness :
  (last_transaction "1" st_book_1 = None ↔ ¬ active "1" st_book_1)
  ∧ ∀ x : Transaction.t,
      last_transaction "1" st_book_1 = Some x
      → Transaction.type x = Add ∨ Transaction.type x = Amend.
Proof.
  apply (last_transaction_kind "1" st_book_1).
  - exact reachable_book_1.
Defined.

Lemma order_times_in_order_witness :
  Order.creation_time (Order.make "1" Bid 50 400 1)
  ≤ Order.last_update_time (Order.make "1" Bid 50 400 1)
  ≤ Transaction.time (Order.last_txn (Order.make "1" Bid 50 400 1)).
Proof.
  apply (order_times_in_order 0 book_1 0%nat (Order.make "1" Bid 50 400%N 1)).
  - unfold book_1; simpl; lia.
  - reflexivity.
Defined.

Lemma created_scans_witness :
  (∀ p : ptr,
     p ∈ orders_created_before 3 st_book_1
     ↔ ∃ (id : string) (o : Order.t),
         get_order id st_book_1 = Some p
         ∧ deref st_book_1 p = Some o ∧ Order.creation_time o < 3)
  ∧ (∀ p : ptr,
       p ∈ orders_created_after 3 st_book_1
       ↔ ∃ (id : string) (o : Order.t),
           get_order id st_book_1 = Some p
           ∧ deref st_book_1 p = Some o ∧ 3 < Order.creation_time o)
    ∧ (∀ p : ptr,
         p ∈ orders_created_before 3 st_book_1 → p ∉ orders_created_after 3 st_book_1)
      ∧ NoDup (orders_created_before 3 st_book_1)
        ∧ NoDup (orders_created_after 3 st_book_1).
Proof.
  apply (created_scans 3 st_book_1).
  - exact reachable_book_1.
Defined.

Lemma updated_scans_witness :
  (∀ p : ptr,
     p ∈ orders_updated_before 3 st_book_1
     ↔ ∃ (id : string) (o : Order.t),
         get_order id st_book_1 = Some p
         ∧ deref st_book_1 p = Some o ∧ Order.last_update_time o < 3)
  ∧ (∀ p : ptr,
       p ∈ orders_updated_after 3 st_book_1
       ↔ ∃ (id : string) (o : Order.t),
           get_order id st_book_1 = Some p
           ∧ deref st_book_1 p = Some o ∧ 3 < Order.last_update_time o)
    ∧ (∀ p : ptr,
         p ∈ orders_updated_before 3 st_book_1 → p ∉ orders_updated_after 3 st_book_1)
      ∧ NoDup (orders_updated_before 3 st_book_1)
        ∧ NoDup (orders_updated_after 3 st_book_1).
Proof.
  apply (updated_scans 3 st_book_1).
  - exact reachable_book_1.
Defined.

Lemma total_quantity_after_add_witness :
  ∃ pl' : PriceLevel.t,
    level Bid 50 (add_order "6" Bid 50 150 6 st_book_1).2 = Some pl'
    ∧ total_quantity (add_order "6" Bid 50 150 6 st_book_1).2 pl' =
      ((from_option (total_quantity st_book_1) 0 (level Bid 50 st_book_1) + 150)
       `mod` 2 ^ 64)%N.
Proof.
  apply (total_quantity_after_add "6" Bid 50 150%N 6 st_book_1).
  - exact reachable_book_1.
  - intros [x Hx]; vm_compute in Hx; discriminate Hx.
Defined.


Lemma counts_after_remove_witness :
  S
    (num_orders_at (Order.side (Order.make "4" Bid 51 100 4))
       (Order.price (Order.make "4" Bid 51 100 4)) (remove_order "4" 6 st_book_1).2) =
  num_orders_at (Order.side (Order.make "4" Bid 51 100 4))
    (Order.price (Order.make "4" Bid 51 100 4)) st_book_1
  ∧ S
      (num_orders_on_side (Order.side (Order.make "4" Bid 51 100 4))
         (remove_order "4" 6 st_book_1).2) =
    num_orders_on_side (Order.side (Order.make "4" Bid 51 100 4)) st_book_1
    ∧ (num_price_levels (Order.side (Order.make "4" Bid 51 100 4%Z))
         (remove_order "4" 6%Z st_book_1).2 +
       (if
         bool_decide
           (orders_at (Order.side (Order.make "4" Bid 51 100 4%Z))
              (Order.price (Order.make "4" Bid 51 100 4%Z)) st_book_1 =
            [3])
        then 1
        else 0))%nat =
      num_price_levels (Order.side (Order.make "4" Bid 51 100 4)) st_book_1
      ∧ ∀ s' : Side,
          s' ≠ Order.side (Order.make "4" Bid 51 100 4)
          → num_orders_on_side s' (remove_order "4" 6 st_book_1).2 =
            num_orders_on_side s' st_book_1
            ∧ num_price_levels s' (remove_order "4" 6 st_book_1).2 =
              num_price_levels s' st_book_1.
Proof.
  apply (counts_after_remove "4" 3%nat (Order.make "4" Bid 51 100%N 4) 6 st_book_1).
  - exact reachable_book_1.
  - reflexivity.
  - reflexivity.
Defined.

